(** * OpenSCV: the Slack front end of a supervised command-line run

    A shallow embedding of the parts of [src/claude.ts] and [src/index.ts]
    that decide the behaviour of one run: prompt validation, the stream
    parser, the process supervisor [runClaudeStream], the Slack stream
    updater and the duplicate-event cache; and of what surrounds a run:
    prompt sanitizing and the child's environment ([src/claude.ts]), and the
    escaping, splitting and final formatting of messages
    ([src/slack-helpers.ts]).

    Conventions.  A JavaScript string is a [string]; one character stands for
    one code unit.  The Korean literals of the source are kept as they are
    written; they are only ever output, and no length is taken of them.
    Mutable variables captured by closures become fields of a state record
    that every callback takes and returns.  What the runtime delivers to a
    callback (a line, a timer firing, a process event, a clock reading) is
    an argument of that callback.  Log output is left out, except where
    evaluating the logged expression can raise.  Lengths and indices of
    strings are integers; a loop that the source does not bound takes the
    number of iterations it may run, and answers [None] when they do not
    suffice. *)

From Stdlib Require Import String Ascii List ZArith Lia Bool.
From Stdlib Require Import DecimalString.
From stdpp Require Import gmap strings.
Import ListNotations.

Local Open Scope string_scope.

(** ** Prompt validation ([validatePrompt], claude.ts) *)

Module Prompt.

Definition MAX_PROMPT_LENGTH : Z := 10000.

(** The alternatives of [FORBIDDEN_PATTERNS], in the order of the
    regular expression. *)
Definition FORBIDDEN_ALTERNATIVES : list string :=
  [ "--dangerously"; "--system-prompt"; "--unsafe";
    "--allowedTools"; "--disallowedTools" ].

(** The [i] flag compares canonicalized code units.  Every pattern
    character is ASCII, and canonicalization never maps a code unit of 128
    or more below 128, so folding the ASCII letters decides every
    comparison against the pattern. *)
Definition canonicalize (c : ascii) : ascii :=
  let n := nat_of_ascii c in
  if (97 <=? n)%nat && (n <=? 122)%nat then ascii_of_nat (n - 32) else c.

(** [pat] read at the head of [s]. *)
Fixpoint matches_at (pat s : string) : bool :=
  match pat, s with
  | EmptyString, _ => true
  | String _ _, EmptyString => false
  | String p pat', String c s' =>
      Ascii.eqb (canonicalize p) (canonicalize c) && matches_at pat' s'
  end.

(** The alternation at one position: the first alternative that matches
    gives the length consumed. *)
Fixpoint alternation (alts : list string) (s : string) : option nat :=
  match alts with
  | [] => None
  | a :: alts' =>
      if matches_at a s then Some (String.length a) else alternation alts' s
  end.

(** Leftmost match in [s], the suffix of the subject that starts at index
    [i]; the result is the index just past the match. *)
Fixpoint exec_from (s : string) (i : nat) : option nat :=
  match alternation FORBIDDEN_ALTERNATIVES s with
  | Some n => Some (i + n)%nat
  | None =>
      match s with
      | EmptyString => None
      | String _ s' => exec_from s' (S i)
      end
  end.

Fixpoint skip (n : nat) (s : string) : string :=
  match n, s with
  | O, _ => s
  | S n', String _ s' => skip n' s'
  | S _, EmptyString => EmptyString
  end.

(** [FORBIDDEN_PATTERNS.test(str)].  The expression carries the [g] flag,
    so the search starts at the object's [lastIndex], which a match moves
    past the match and a failure resets to 0.  The second component is the
    new [lastIndex]. *)
Definition test (lastIndex : nat) (str : string) : bool * nat :=
  if (String.length str <? lastIndex)%nat then (false, 0%nat)
  else match exec_from (skip lastIndex str) lastIndex with
       | Some e => (true, e)
       | None => (false, 0%nat)
       end.

Definition FORBIDDEN_REASON : string :=
  "프롬프트에 금지된 패턴이 포함되어 있습니다".

Definition TOO_LONG_REASON : string :=
  "프롬프트가 너무 깁니다 (최대 10000자)".

(** [validatePrompt(prompt)]: the reason, or [None] for JavaScript's
    [null], with the [lastIndex] the module-level expression is left
    with. *)
Definition validatePrompt (prompt : string) (lastIndex : nat)
  : option string * nat :=
  let '(found, lastIndex') := test lastIndex prompt in
  if found then (Some FORBIDDEN_REASON, lastIndex')
  else if (MAX_PROMPT_LENGTH <? Z.of_nat (String.length prompt))%Z
       then (Some TOO_LONG_REASON, lastIndex')
       else (None, lastIndex').

(** The gate of the [app_mention] and [message] handlers (index.ts): a
    validation error is posted to the thread and the handler returns;
    otherwise the request goes on to [handleClaudeRequest], which spawns
    the process. *)
Inductive gate : Type :=
| Rejected (reply : string)
| Spawns (prompt : string).

Definition validation_gate (prompt : string) (lastIndex : nat)
  : gate * nat :=
  match validatePrompt prompt lastIndex with
  | (Some validationError, li) => (Rejected ("⚠️ " ++ validationError), li)
  | (None, li) => (Spawns prompt, li)
  end.

(** Successive requests on the one module-level expression, which starts
    with [lastIndex = 0]. *)
Fixpoint gates (prompts : list string) (lastIndex : nat) : list gate :=
  match prompts with
  | [] => []
  | p :: rest =>
      let '(g, li) := validation_gate p lastIndex in g :: gates rest li
  end.

End Prompt.

(** ** Values of the stream records *)

Module Json.

(** What [JSON.parse] returns, and [undefined] for an absent property.  The
    parser tests a number for truthiness, compares it, appends it to text
    and passes it on, and never computes with it: a number is kept as the
    text JavaScript renders it with, zero being ["0"].  An object lists
    each of its properties once. *)
#[local] Unset Elimination Schemes.
Inductive value : Type :=
| VUndefined
| VNull
| VBool (b : bool)
| VNum (repr : string)
| VStr (s : string)
| VArr (items : list value)
| VObj (fields : list (string * value)).
#[local] Set Elimination Schemes.

(** ToBoolean. *)
Definition truthy (v : value) : bool :=
  match v with
  | VUndefined | VNull => false
  | VBool b => b
  | VNum repr => negb (String.eqb repr "0")
  | VStr s => negb (String.eqb s "")
  | VArr _ | VObj _ => true
  end.

Definition nullish (v : value) : bool :=
  match v with
  | VUndefined | VNull => true
  | _ => false
  end.

Fixpoint lookup_field (fields : list (string * value)) (key : string)
  : value :=
  match fields with
  | [] => VUndefined
  | (k, v) :: fields' =>
      if String.eqb k key then v else lookup_field fields' key
  end.

(** [v.key] on a value that is neither [null] nor [undefined].  None of
    the property names the parser reads is defined on a string, number,
    boolean or array, so only an object can answer. *)
Definition get (v : value) (key : string) : value :=
  match v with
  | VObj fields => lookup_field fields key
  | _ => VUndefined
  end.

(** [a === b].  Two arrays or objects that come out of a parse are never
    the same reference. *)
Definition strict_eq (a b : value) : bool :=
  match a, b with
  | VUndefined, VUndefined => true
  | VNull, VNull => true
  | VBool x, VBool y => Bool.eqb x y
  | VNum x, VNum y => String.eqb x y
  | VStr x, VStr y => String.eqb x y
  | _, _ => false
  end.

(** [a || b]. *)
Definition or_else (a b : value) : value := if truthy a then a else b.

(** ToString, as string concatenation applies it. *)
Fixpoint ToString (v : value) : string :=
  match v with
  | VUndefined => "undefined"
  | VNull => "null"
  | VBool true => "true"
  | VBool false => "false"
  | VNum repr => repr
  | VStr s => s
  | VArr items =>
      (fix join (xs : list value) : string :=
         match xs with
         | [] => ""
         | x :: rest =>
             let here :=
               match x with
               | VUndefined | VNull => ""
               | _ => ToString x
               end in
             match rest with
             | [] => here
             | _ :: _ => here ++ "," ++ join rest
             end
         end) items
  | VObj _ => "[object Object]"
  end.

(** A non-negative integer as a number value. *)
Definition of_Z (z : Z) : value :=
  VNum (NilZero.string_of_int (Z.to_int z)).

End Json.

(** ** The stream parser ([parseStreamLine], claude.ts) *)

Module Parser.
Import Json.

Record ClaudeResult : Type := mkResult {
  success : bool;
  output : value;
  timedOut : bool;
  exitCode : option Z;
  durationMs : value;
  costUsd : value;
  numTurns : value
}.

(** The casts of the source ([as string], [as number]) check nothing, so
    a payload is whatever value the record carried. *)
Inductive ClaudeStreamEvent : Type :=
| thinking
| text_delta (text : value) (accumulated : string)
| tool_use (toolName : value)
| tool_result (toolName : value) (durationSec : value)
| complete (result : ClaudeResult).

(** The [state] object; [currentToolName] is a string or [null]. *)
Record state : Type := mkState {
  accumulatedText : string;
  currentToolName : value;
  isThinking : bool
}.

Definition set_accumulatedText (x : string) (s : state) : state :=
  mkState x (currentToolName s) (isThinking s).
Definition set_currentToolName (x : value) (s : state) : state :=
  mkState (accumulatedText s) x (isThinking s).
Definition set_isThinking (x : bool) (s : state) : state :=
  mkState (accumulatedText s) (currentToolName s) x.

(** How a statement ends: it falls through, it returns from the function,
    or it raises (here always a TypeError). *)
Inductive completion : Type := Normal | Return | Throw.

(** A statement runs on the state, calls [onEvent] some number of times
    and completes.  The events are listed in call order. *)
Definition stmt : Type :=
  state -> state * list ClaudeStreamEvent * completion.

Definition skip : stmt := fun s => (s, [], Normal).
Definition return_ : stmt := fun s => (s, [], Return).
Definition throw : stmt := fun s => (s, [], Throw).
Definition onEvent (e : ClaudeStreamEvent) : stmt := fun s => (s, [e], Normal).
Definition assign (f : state -> state) : stmt := fun s => (f s, [], Normal).
Definition read (k : state -> stmt) : stmt := fun s => k s s.

Definition seq (a b : stmt) : stmt :=
  fun s =>
    let '(s1, e1, c1) := a s in
    match c1 with
    | Normal => let '(s2, e2, c2) := b s1 in (s2, (e1 ++ e2)%list, c2)
    | _ => (s1, e1, c1)
    end.

(** Reading a property of [null] or [undefined] raises. *)
Definition prop (v : value) (key : string) (k : value -> stmt) : stmt :=
  if nullish v then throw else k (get v key).

Fixpoint for_of (xs : list value) (body : value -> stmt) : stmt :=
  match xs with
  | [] => skip
  | x :: rest => seq (body x) (for_of rest body)
  end.

Declare Scope stmt_scope.
Delimit Scope stmt_scope with stmt.
Bind Scope stmt_scope with stmt.
Notation "a ;; b" := (seq a b)
  (at level 100, b at level 200, right associativity) : stmt_scope.
Notation "'let!' x ':=' v '.[' key ']' 'in' body" :=
  (prop v key (fun x => body))
  (at level 10, x name, v at level 9, body at level 200) : stmt_scope.
Local Open Scope stmt_scope.

(** [event.type === "content_block_start"] *)
Definition content_block_start (event : value) : stmt :=
  let! block := event.["content_block"] in
  if negb (truthy block) then return_ else
  let! block_type := block.["type"] in
  read (fun state =>
    if strict_eq block_type (VStr "thinking") && negb (isThinking state)
    then
      assign (set_isThinking true) ;;
      onEvent thinking
    else if strict_eq block_type (VStr "tool_use") then
      let! name := block.["name"] in
      let toolName := or_else name (VStr "unknown_tool") in
      assign (set_currentToolName toolName) ;;
      onEvent (tool_use toolName)
    else if strict_eq block_type (VStr "text") then
      assign (set_isThinking false)
    else skip).

(** [event.type === "content_block_delta"].  The first delta of a run is
    logged through [text.substring], which raises when [text] is not a
    string; the state is already updated by then. *)
Definition content_block_delta (event : value) : stmt :=
  let! delta := event.["delta"] in
  if negb (truthy delta) then return_ else
  let! delta_type := delta.["type"] in
  if strict_eq delta_type (VStr "text_delta") then
    let! text := delta.["text"] in
    read (fun state =>
      let waEmpty := (String.length (accumulatedText state) =? 0)%nat in
      assign (set_accumulatedText (accumulatedText state ++ ToString text)) ;;
      assign (set_isThinking false) ;;
      (if waEmpty
       then match text with VStr _ => skip | _ => throw end
       else skip) ;;
      read (fun state =>
        onEvent (text_delta text (accumulatedText state))))
  else skip.

(** [type === "stream_event"] *)
Definition stream_event (parsed : value) : stmt :=
  let! event := parsed.["event"] in
  if negb (truthy event) then return_ else
  let! eventType := event.["type"] in
  if strict_eq eventType (VStr "content_block_start")
  then content_block_start event
  else if strict_eq eventType (VStr "content_block_delta")
  then content_block_delta event
  else skip.

(** [type === "assistant"]: the second channel for tool use. *)
Definition assistant_block (block : value) : stmt :=
  let! block_type := block.["type"] in
  let! name := block.["name"] in
  if strict_eq block_type (VStr "tool_use") && truthy name then
    let toolName := name in
    read (fun state =>
      if negb (strict_eq (currentToolName state) toolName) then
        assign (set_currentToolName toolName) ;;
        onEvent (tool_use toolName)
      else skip)
  else skip.

Definition assistant (parsed : value) : stmt :=
  let! message := parsed.["message"] in
  if truthy message then
    let! content := message.["content"] in
    match content with
    | VArr blocks => for_of blocks assistant_block
    | _ => skip
    end
  else skip.

(** [type === "user"]: a tool result. *)
Definition user (parsed : value) : stmt :=
  let! message := parsed.["message"] in
  if truthy message then
    let! content := message.["content"] in
    match content with
    | VArr (first :: _) =>
        let! first_type := first.["type"] in
        if strict_eq first_type (VStr "tool_result") then
          let! toolResult := parsed.["tool_use_result"] in
          let durationSec :=
            if nullish toolResult then VUndefined
            else get toolResult "durationSeconds" in
          read (fun state =>
            let toolName :=
              or_else (currentToolName state) (VStr "도구") in
            onEvent (tool_result toolName durationSec) ;;
            assign (set_currentToolName VNull))
        else skip
    | _ => skip
    end
  else skip.

(** [type === "result"].  The log line calls [costUsd?.toFixed(4)], which
    raises when the cost is present and not a number. *)
Definition result (parsed : value) : stmt :=
  let! parsed_result := parsed.["result"] in
  let! duration_ms := parsed.["duration_ms"] in
  let! costUsd := parsed.["total_cost_usd"] in
  let! numTurns := parsed.["num_turns"] in
  let! isError := parsed.["is_error"] in
  read (fun state =>
    let resultText :=
      or_else (or_else parsed_result (VStr (accumulatedText state)))
              (VStr "(빈 응답)") in
    let durationMs := or_else duration_ms (VNum "0") in
    match costUsd with
    | VUndefined | VNull | VNum _ => skip
    | _ => throw
    end ;;
    onEvent (complete {| success := negb (truthy isError);
                         output := resultText;
                         timedOut := false;
                         exitCode := Some 0%Z;
                         durationMs := durationMs;
                         costUsd := costUsd;
                         numTurns := numTurns |})).

(** The body of [parseStreamLine] once the line is parsed: four tests on
    the record's [type], one after the other. *)
Definition dispatch (parsed : value) : stmt :=
  let! type := parsed.["type"] in
  (if strict_eq type (VStr "stream_event") then stream_event parsed
   else skip) ;;
  (if strict_eq type (VStr "assistant") then assistant parsed else skip) ;;
  (if strict_eq type (VStr "user") then user parsed else skip) ;;
  (if strict_eq type (VStr "result") then result parsed else skip).

(** A line of the child's output, given by what [JSON.parse] makes of it:
    it raises a SyntaxError, or it returns a value. *)
Inductive line : Type :=
| Unparseable (raw : string)
| Parseable (parsed : value).

Definition JSON_parse (l : line) : option value :=
  match l with
  | Unparseable _ => None
  | Parseable parsed => Some parsed
  end.

(** [parseStreamLine(line, state, onEvent)]: the state it leaves, the
    events it passes to [onEvent], and whether it raised. *)
Definition parseStreamLine (l : line) (s : state)
  : state * list ClaudeStreamEvent * bool :=
  let body :=
    match JSON_parse l with
    | None => return_
    | Some parsed => dispatch parsed
    end in
  let '(s', events, c) := body s in
  (s', events, match c with Throw => true | _ => false end).

(** Successive calls on the one state object, as the line listener makes
    them: the state at the end and the events in order. *)
Fixpoint parseStream (ls : list line) (s : state)
  : state * list ClaudeStreamEvent :=
  match ls with
  | [] => (s, [])
  | l :: rest =>
      let '(s1, e1, _) := parseStreamLine l s in
      let '(s2, e2) := parseStream rest s1 in
      (s2, (e1 ++ e2)%list)
  end.

(** *** Shapes of records *)

Definition path (v : value) (keys : list string) : value :=
  fold_left get keys v.

Definition tagged (v : value) (tag : string) : bool :=
  strict_eq v (VStr tag).

(** A content-start record of the given sub-kind. *)
Definition content_start (parsed : value) (kind : string) : Prop :=
  get parsed "type" = VStr "stream_event" /\
  path parsed ["event"; "type"] = VStr "content_block_start" /\
  path parsed ["event"; "content_block"; "type"] = VStr kind.



(** A block of an assistant turn that names the tool [n]. *)
Definition names_tool (block : value) (n : string) : Prop :=
  get block "type" = VStr "tool_use" /\ get block "name" = VStr n.




Definition parseable (l : line) : bool :=
  match JSON_parse l with Some _ => true | None => false end.

(** A record with the type tag of the final result. *)
Definition is_result_line (l : line) : bool :=
  match l with
  | Unparseable _ => false
  | Parseable parsed => tagged (get parsed "type") "result"
  end.

Definition is_complete (e : ClaudeStreamEvent) : bool :=
  match e with complete _ => true | _ => false end.



(** *** Frame conditions of statements *)

(** [a] passes no event selected by [p] to [onEvent]. *)
Definition emits_none (p : ClaudeStreamEvent -> bool) (a : stmt) : Prop :=
  forall s, List.filter p (a s).1.2 = [].

(** [a] leaves the projection [f] of the state as it is. *)
Definition preserves {A : Type} (f : state -> A) (a : stmt) : Prop :=
  forall s, f (a s).1.1 = f s.

(** [a] neither emits an event selected by [p] nor changes [f]. *)
Definition framed {A : Type} (p : ClaudeStreamEvent -> bool)
    (f : state -> A) (a : stmt) : Prop :=
  emits_none p a /\ preserves f a.

(** The projection that keeps nothing of the state. *)
Definition nothing (s : state) : unit := tt.

(** The lengths of the accumulated text that the [text_delta] events
    carry, in order. *)
Definition accumulated_lengths (evs : list ClaudeStreamEvent) : list nat :=
  flat_map (fun e => match e with
                     | text_delta _ accumulated => [String.length accumulated]
                     | _ => []
                     end) evs.

(** [ns] never decreases and starts at [lo] or above. *)
Fixpoint nondecreasing_from (lo : nat) (ns : list nat) : bool :=
  match ns with
  | [] => true
  | n :: rest => (lo <=? n)%nat && nondecreasing_from n rest
  end.

(** From the state [s], [a] emits accumulated texts of lengths that never
    decrease, between the length of the text in [s] and the length of the
    text it leaves. *)
Definition grows_at (s : state) (a : stmt) : Prop :=
  nondecreasing_from (String.length (accumulatedText s))
    (accumulated_lengths (a s).1.2 ++
     [String.length (accumulatedText (a s).1.1)])%list = true.


End Parser.

(** ** The process supervisor ([runClaudeStream], claude.ts) *)

Module Runner.
Import Json Parser.

(** White space as [String.prototype.trim] sees it, among the code units
    below 256. *)
Definition is_space (c : ascii) : bool :=
  let n := nat_of_ascii c in
  ((9 <=? n)%nat && (n <=? 13)%nat) || (n =? 32)%nat || (n =? 160)%nat.

Fixpoint trimStart (s : string) : string :=
  match s with
  | EmptyString => EmptyString
  | String c s' => if is_space c then trimStart s' else s
  end.

Fixpoint trimEnd (s : string) : string :=
  match s with
  | EmptyString => EmptyString
  | String c s' =>
      match trimEnd s' with
      | EmptyString => if is_space c then EmptyString else String c EmptyString
      | t => String c t
      end
  end.

Definition trim (s : string) : string := trimEnd (trimStart s).

(** [!line.trim()]: text that parses is never blank. *)
Definition blank (l : line) : bool :=
  match l with
  | Unparseable raw => String.eqb (trim raw) ""
  | Parseable _ => false
  end.

Inductive signal : Type := SIGTERM | SIGKILL.

(** The two ways the supervisor signals: [child.kill(sig)] reaches the
    child, [process.kill(-pid, sig)] its process group. *)
Inductive kill_call : Type :=
| kill_child (sig : signal)
| kill_group (pid : Z) (sig : signal).

(** The promise [runClaudeStream] returns.  The executor is handed
    [resolve] only. *)
Inductive promise : Type :=
| pending
| fulfilled (result : ClaudeResult)
| rejected.

(** Settling a promise a second time does nothing. *)
Definition resolve (result : ClaudeResult) (p : promise) : promise :=
  match p with
  | pending => fulfilled result
  | _ => p
  end.

(** One run: the variables the callbacks share, the timers and listeners
    that are live, and what the run has done to the outside.  A pending
    timer is given by the time it is due.  [kills] lists the signals the
    callbacks of [runClaudeStream] send; the [timeout] option handed to
    [spawn], by which the runtime itself signals the child 5000 ms after
    the timeout, is the runtime's business. *)
Record run : Type := mkRun {
  startTime : Z;
  state : Parser.state;
  killed : bool;
  killAttempted : bool;
  resultResolved : bool;
  pid : option Z;              (* child.pid *)
  child : bool;                (* the close and error listeners are on *)
  rl : bool;                   (* the readline interface is open *)
  heartbeat : bool;
  timer : option Z;
  killTimer : option Z;
  exit_clears_killTimer : bool;  (* the exit listener is on *)
  events : list ClaudeStreamEvent;  (* calls of the caller's onEvent *)
  returned : promise;
  kills : list kill_call;
  uncaught : nat               (* exceptions that left a listener *)
}.

Definition set_state x r :=
  mkRun (startTime r) x (killed r) (killAttempted r) (resultResolved r)
    (pid r) (child r) (rl r) (heartbeat r) (timer r) (killTimer r)
    (exit_clears_killTimer r) (events r) (returned r) (kills r) (uncaught r).
Definition set_killed x r :=
  mkRun (startTime r) (state r) x (killAttempted r) (resultResolved r)
    (pid r) (child r) (rl r) (heartbeat r) (timer r) (killTimer r)
    (exit_clears_killTimer r) (events r) (returned r) (kills r) (uncaught r).
Definition set_killAttempted x r :=
  mkRun (startTime r) (state r) (killed r) x (resultResolved r)
    (pid r) (child r) (rl r) (heartbeat r) (timer r) (killTimer r)
    (exit_clears_killTimer r) (events r) (returned r) (kills r) (uncaught r).
Definition set_resultResolved x r :=
  mkRun (startTime r) (state r) (killed r) (killAttempted r) x
    (pid r) (child r) (rl r) (heartbeat r) (timer r) (killTimer r)
    (exit_clears_killTimer r) (events r) (returned r) (kills r) (uncaught r).
Definition set_rl x r :=
  mkRun (startTime r) (state r) (killed r) (killAttempted r) (resultResolved r)
    (pid r) (child r) x (heartbeat r) (timer r) (killTimer r)
    (exit_clears_killTimer r) (events r) (returned r) (kills r) (uncaught r).
Definition set_heartbeat x r :=
  mkRun (startTime r) (state r) (killed r) (killAttempted r) (resultResolved r)
    (pid r) (child r) (rl r) x (timer r) (killTimer r)
    (exit_clears_killTimer r) (events r) (returned r) (kills r) (uncaught r).
Definition set_timer x r :=
  mkRun (startTime r) (state r) (killed r) (killAttempted r) (resultResolved r)
    (pid r) (child r) (rl r) (heartbeat r) x (killTimer r)
    (exit_clears_killTimer r) (events r) (returned r) (kills r) (uncaught r).
Definition set_killTimer x r :=
  mkRun (startTime r) (state r) (killed r) (killAttempted r) (resultResolved r)
    (pid r) (child r) (rl r) (heartbeat r) (timer r) x
    (exit_clears_killTimer r) (events r) (returned r) (kills r) (uncaught r).
Definition set_exit_clears_killTimer x r :=
  mkRun (startTime r) (state r) (killed r) (killAttempted r) (resultResolved r)
    (pid r) (child r) (rl r) (heartbeat r) (timer r) (killTimer r)
    x (events r) (returned r) (kills r) (uncaught r).
Definition set_events x r :=
  mkRun (startTime r) (state r) (killed r) (killAttempted r) (resultResolved r)
    (pid r) (child r) (rl r) (heartbeat r) (timer r) (killTimer r)
    (exit_clears_killTimer r) x (returned r) (kills r) (uncaught r).
Definition set_returned x r :=
  mkRun (startTime r) (state r) (killed r) (killAttempted r) (resultResolved r)
    (pid r) (child r) (rl r) (heartbeat r) (timer r) (killTimer r)
    (exit_clears_killTimer r) (events r) x (kills r) (uncaught r).
Definition set_kills x r :=
  mkRun (startTime r) (state r) (killed r) (killAttempted r) (resultResolved r)
    (pid r) (child r) (rl r) (heartbeat r) (timer r) (killTimer r)
    (exit_clears_killTimer r) (events r) (returned r) x (uncaught r).
Definition set_uncaught x r :=
  mkRun (startTime r) (state r) (killed r) (killAttempted r) (resultResolved r)
    (pid r) (child r) (rl r) (heartbeat r) (timer r) (killTimer r)
    (exit_clears_killTimer r) (events r) (returned r) (kills r) x.

Definition GRACE_MS : Z := 5000.

(** What [spawn] does: it raises, or it returns a child, whose [pid] is
    undefined when the process could not be started. *)
Inductive thrown : Type :=
| an_Error (message : string)
| not_an_Error.

Inductive spawn_outcome : Type :=
| spawn_throws (err : thrown)
| spawn_returns (child_pid : option Z).

Definition failed_result (output : string) (durationMs : Z) : ClaudeResult :=
  {| success := false;
     output := VStr output;
     timedOut := false;
     exitCode := None;
     durationMs := of_Z durationMs;
     costUsd := VUndefined;
     numTurns := VUndefined |}.

(** The caller's [onEvent], and [resolve]. *)
Definition emit (event : ClaudeStreamEvent) (r : run) : run :=
  set_events (events r ++ [event])%list r.
Definition settle (result : ClaudeResult) (r : run) : run :=
  set_returned (resolve result (returned r)) r.
Definition send (k : kill_call) (r : run) : run :=
  set_kills (kills r ++ [k])%list r.

(** The executor of the promise: the synchronous part of
    [runClaudeStream], entered at [start]; [now] is the clock when [spawn]
    has returned or raised. *)
Definition runClaudeStream
    (timeoutMs start : Z) (spawned : spawn_outcome) (now : Z) : run :=
  let r :=
    {| startTime := start;
       state := {| accumulatedText := ""; currentToolName := VNull;
                   isThinking := false |};
       killed := false; killAttempted := false; resultResolved := false;
       pid := None; child := false; rl := false; heartbeat := false;
       timer := None; killTimer := None; exit_clears_killTimer := false;
       events := []; returned := pending; kills := []; uncaught := 0 |} in
  match spawned with
  | spawn_throws err =>
      let message :=
        match err with
        | an_Error m => m
        | not_an_Error => "알 수 없는 오류"
        end in
      let result :=
        failed_result ("Claude CLI 실행 실패: " ++ message) (now - start) in
      let r := emit (complete result) r in
      settle result r
  | spawn_returns child_pid =>
      {| startTime := start; state := state r;
         killed := false; killAttempted := false; resultResolved := false;
         pid := child_pid; child := true; rl := true; heartbeat := true;
         timer := Some (now + timeoutMs)%Z; killTimer := None;
         exit_clears_killTimer := false;
         events := []; returned := pending; kills := []; uncaught := 0 |}
  end.

(** The callback handed to [parseStreamLine]: the event goes to the
    caller, and the first [complete] event resolves the promise. *)
Definition forward (r : run) (event : ClaudeStreamEvent) : run :=
  let r := emit event r in
  match event with
  | complete result =>
      if negb (resultResolved r) then
        let r := set_resultResolved true r in
        settle result r
      else r
  | _ => r
  end.

(** [rl.on("line", ...)] *)
Definition on_line (l : line) (r : run) : run :=
  if blank l then r else
  let '(s, evs, raised) := parseStreamLine l (state r) in
  let r := set_state s r in
  let r := fold_left forward evs r in
  if raised then set_uncaught (S (uncaught r)) r else r.

(** The timeout callback, fired at [now]. *)
Definition on_timer (now : Z) (r : run) : run :=
  let r := set_killed true r in
  if negb (killAttempted r) then
    let r := set_killAttempted true r in
    let r := send (kill_child SIGTERM) r in
    let r := set_killTimer (Some (now + GRACE_MS)%Z) r in
    set_exit_clears_killTimer true r
  else r.

(** The kill timer's callback; a failing [process.kill] is swallowed. *)
Definition on_killTimer (r : run) : run :=
  match pid r with
  | Some p => if (p =? 0)%Z then r else send (kill_group p SIGKILL) r
  | None => r
  end.

(** [child.on("exit", () => clearTimeout(killTimer))] *)
Definition on_exit (r : run) : run := set_killTimer None r.

(** [child.on("close", ...)] *)
Definition on_close (code : option Z) (now : Z) (r : run) : run :=
  let r := set_timer None r in
  let r := set_heartbeat false r in
  let r := set_rl false r in
  let durationMs := (now - startTime r)%Z in
  if negb (resultResolved r) then
    let trimmed := trim (accumulatedText (state r)) in
    let output := if String.eqb trimmed "" then "(빈 응답)" else trimmed in
    let result :=
      {| success := negb (killed r) &&
                    match code with Some c => (c =? 0)%Z | None => false end;
         output := VStr output;
         timedOut := killed r;
         exitCode := code;
         durationMs := of_Z durationMs;
         costUsd := VUndefined;
         numTurns := VUndefined |} in
    let r := emit (complete result) r in
    settle result r
  else r.

(** [child.on("error", ...)] *)
Definition on_error (message : string) (now : Z) (r : run) : run :=
  let r := set_timer None r in
  let r := set_heartbeat false r in
  if negb (resultResolved r) then
    let result :=
      failed_result ("프로세스 오류: " ++ message) (now - startTime r) in
    let r := emit (complete result) r in
    settle result r
  else r.

(** What the runtime brings to the run.  The heartbeat and the stderr
    listener only log and are left out. *)
Inductive occurrence : Type :=
| line_read (l : line)
| timer_fired (now : Z)
| killTimer_fired (now : Z)
| child_exit
| child_close (code : option Z) (now : Z)
| child_error (message : string) (now : Z).

(** The runtime calls a callback only while its source is live: a timer
    that is pending and due, a listener that is registered. *)
Definition deliver (r : run) (o : occurrence) : run :=
  match o with
  | line_read l => if rl r then on_line l r else r
  | timer_fired now =>
      match timer r with
      | Some due => if (due <=? now)%Z then on_timer now (set_timer None r) else r
      | None => r
      end
  | killTimer_fired now =>
      match killTimer r with
      | Some due =>
          if (due <=? now)%Z then on_killTimer (set_killTimer None r) else r
      | None => r
      end
  | child_exit => if exit_clears_killTimer r then on_exit r else r
  | child_close code now => if child r then on_close code now r else r
  | child_error message now => if child r then on_error message now r else r
  end.

Definition exec (r : run) (trace : list occurrence) : run :=
  fold_left deliver trace r.


Definition is_line (o : occurrence) : bool :=
  match o with line_read _ => true | _ => false end.

Definition ends_run (o : occurrence) : bool :=
  match o with
  | child_close _ _ | child_error _ _ => true
  | _ => false
  end.

(** A trace before the process closes, without an error event, in which
    no line is read after a result record. *)
Fixpoint result_read_last (trace : list occurrence) : bool :=
  match trace with
  | [] => true
  | o :: rest =>
      negb (ends_run o) &&
      match o with
      | line_read l =>
          if is_result_line l
          then forallb (fun o' => negb (is_line o') && negb (ends_run o')) rest
          else result_read_last rest
      | _ => result_read_last rest
      end
  end.

(** An occurrence that is not the reading of a malformed line. *)
Definition well_formed (o : occurrence) : bool :=
  match o with
  | line_read l => parseable l
  | _ => true
  end.

(** *** Invariants of a run *)

(** The part of a run that the line listener never writes. *)
Definition control (r : run) :=
  (startTime r, killed r, killAttempted r, pid r, child r, rl r,
   timer r, killTimer r, exit_clears_killTimer r, kills r).

(** What holds of the timers and signals of every run that started with
    its timeout timer due at [due0]. *)
Record escalation (due0 : Z) (r : run) : Prop := {
  esc_child : child r = true;
  esc_flag : killAttempted r = killed r;
  esc_timer : forall due, timer r = Some due -> due = due0 /\ killed r = false;
  esc_idle : killed r = false ->
             kills r = [] /\ killTimer r = None /\
             exit_clears_killTimer r = false;
  esc_term : killed r = true ->
             timer r = None /\ exit_clears_killTimer r = true /\
             exists rest, kills r = kill_child SIGTERM :: rest /\
                          (killTimer r <> None -> rest = [])
}.

(** The part of a run that timers and the exit of the process never
    write. *)
Definition shape (r : run) :=
  (events r, resultResolved r, returned r, child r, rl r).

(** An occurrence that reads no line and does not end the run. *)
Definition quiet (o : occurrence) : bool := negb (is_line o) && negb (ends_run o).

(** A run in which no [complete] has been emitted and the promise is
    pending. *)
Definition open_run (r : run) : Prop :=
  child r = true /\ rl r = true /\ resultResolved r = false /\
  returned r = pending.


End Runner.

(** ** The Slack stream updater ([createStreamUpdater], index.ts) *)

Module Updater.
Import Json Parser.

(** [statusLine] takes one of five shapes; the tool's label is a function
    of the tool name. *)
Inductive status : Type :=
| st_initial                      (* the line the updater starts with *)
| st_thinking
| st_tool (toolName : value)
| st_analyzing
| st_writing.

(** What [buildMessage] renders: the text sent is a function of the tool
    history, the status line and the accumulated text. *)
Record message : Type := mkMessage {
  msg_history : list (value * value);   (* tool name, durationSec *)
  msg_status : status;
  msg_text : string
}.

Record updater : Type := mkUpdater {
  accumulatedText : string;
  statusLine : status;
  toolHistory : list (value * value);
  dirty : bool;
  flushing : bool;
  stopped : bool;
  intervalTimer : bool;            (* the interval is live *)
  updates : list message;          (* calls of client.chat.update *)
  in_flight : nat                  (* calls not yet settled *)
}.

Definition createStreamUpdater : updater :=
  {| accumulatedText := ""; statusLine := st_initial; toolHistory := [];
     dirty := true; flushing := false; stopped := false;
     intervalTimer := true; updates := []; in_flight := 0 |}.

Definition buildMessage (u : updater) : message :=
  mkMessage (toolHistory u) (statusLine u) (accumulatedText u).

(** The interval callback up to its [await]: the call of
    [client.chat.update] is made and the callback is suspended. *)
Definition on_interval (u : updater) : updater :=
  if stopped u || negb (dirty u) || flushing u then u
  else
    {| accumulatedText := accumulatedText u; statusLine := statusLine u;
       toolHistory := toolHistory u;
       dirty := false; flushing := true; stopped := stopped u;
       intervalTimer := intervalTimer u;
       updates := (updates u ++ [buildMessage u])%list;
       in_flight := S (in_flight u) |}.

(** The rest of the callback, when the update resolves or rejects: a
    rejection is logged, and [finally] clears [flushing] either way. *)
Definition on_settled (ok : bool) (u : updater) : updater :=
  {| accumulatedText := accumulatedText u; statusLine := statusLine u;
     toolHistory := toolHistory u;
     dirty := dirty u; flushing := false; stopped := stopped u;
     intervalTimer := intervalTimer u;
     updates := updates u;
     in_flight := pred (in_flight u) |}.

Definition render (text : string) (line : status)
    (history : list (value * value)) (u : updater) : updater :=
  {| accumulatedText := text; statusLine := line; toolHistory := history;
     dirty := true; flushing := flushing u; stopped := stopped u;
     intervalTimer := intervalTimer u;
     updates := updates u; in_flight := in_flight u |}.

Definition stop (timer_live : bool) (u : updater) : updater :=
  {| accumulatedText := accumulatedText u; statusLine := statusLine u;
     toolHistory := toolHistory u;
     dirty := dirty u; flushing := flushing u; stopped := true;
     intervalTimer := timer_live;
     updates := updates u; in_flight := in_flight u |}.

Definition onEvent (event : ClaudeStreamEvent) (u : updater) : updater :=
  if stopped u then u else
  match event with
  | thinking =>
      render (accumulatedText u) st_thinking (toolHistory u) u
  | tool_use toolName =>
      render (accumulatedText u) (st_tool toolName) (toolHistory u) u
  | tool_result toolName durationSec =>
      render (accumulatedText u) st_analyzing
             (toolHistory u ++ [(toolName, durationSec)])%list u
  | text_delta _ accumulated =>
      render accumulated st_writing (toolHistory u) u
  | complete _ => stop (intervalTimer u) u
  end.

Definition cleanup (u : updater) : updater := stop false u.

Inductive occurrence : Type :=
| interval_fired
| update_settled (ok : bool)
| event_received (event : ClaudeStreamEvent)
| cleanup_called.

(** An interval fires while it is not cleared; an update settles only
    while one is outstanding. *)
Definition deliver (u : updater) (o : occurrence) : updater :=
  match o with
  | interval_fired => if intervalTimer u then on_interval u else u
  | update_settled ok =>
      match in_flight u with
      | O => u
      | S _ => on_settled ok u
      end
  | event_received event => onEvent event u
  | cleanup_called => cleanup u
  end.

Definition exec (u : updater) (trace : list occurrence) : updater :=
  fold_left deliver trace u.


End Updater.

(** ** The duplicate-event cache ([isDuplicate], index.ts) *)

Module Dedupe.

Definition MAX_CACHE_SIZE : Z := 10000.
Definition WINDOW_MS : Z := 5 * 60 * 1000.

(** The module-level [processed] map and the removal timers that are
    pending, each with the key it removes and the time it is due. *)
Record cache : Type := mkCache {
  processed : gmap string Z;
  timers : list (string * Z)
}.

Definition empty : cache := mkCache ∅ [].

(** The sweep: every entry older than the window is removed. *)
Definition sweep (cutoff : Z) (m : gmap string Z) : gmap string Z :=
  filter (λ entry : string * Z, ¬ (entry.2 < cutoff)%Z) m.

(** [isDuplicate(key)] called at [now]; the call runs to its end within
    one reading of the clock. *)
Definition isDuplicate (key : string) (now : Z) (c : cache) : bool * cache :=
  match processed c !! key with
  | Some _ => (true, c)
  | None =>
      let m := <[key := now]> (processed c) in
      let m :=
        if (MAX_CACHE_SIZE <? Z.of_nat (size m))%Z
        then sweep (now - WINDOW_MS) m
        else m in
      (false, mkCache m (timers c ++ [(key, (now + WINDOW_MS)%Z)]))
  end.

(** The caller's view, [admit] in the design notes: a request is accepted
    when it is not a duplicate. *)
Definition accept (key : string) (now : Z) (c : cache) : bool * cache :=
  let '(dup, c') := isDuplicate key now c in (negb dup, c').

(** A removal timer's callback: [processed.delete(key)]. *)
Definition on_timer (key : string) (c : cache) : cache :=
  mkCache (delete key (processed c)) (timers c).

Fixpoint remove_timer (key : string) (now : Z) (ts : list (string * Z))
  : option (list (string * Z)) :=
  match ts with
  | [] => None
  | (k, due) :: rest =>
      if String.eqb k key && (due <=? now)%Z then Some rest
      else option_map (cons (k, due)) (remove_timer key now rest)
  end.

Inductive occurrence : Type :=
| request (key : string) (now : Z)
| timer_fired (key : string) (now : Z).

(** A timer fires once, when it is pending and due.  The second component
    is the answer of [accept] for a request. *)
Definition deliver (c : cache) (o : occurrence) : cache * option bool :=
  match o with
  | request key now =>
      let '(accepted, c') := accept key now c in (c', Some accepted)
  | timer_fired key now =>
      match remove_timer key now (timers c) with
      | Some rest => (on_timer key (mkCache (processed c) rest), None)
      | None => (c, None)
      end
  end.

(** The cache after a trace, and the answers to its requests for [key]. *)
Fixpoint exec (c : cache) (key : string) (trace : list occurrence)
  : cache * list bool :=
  match trace with
  | [] => (c, [])
  | o :: rest =>
      let '(c', answer) := deliver c o in
      let '(c'', answers) := exec c' key rest in
      match o, answer with
      | request k _, Some a =>
          if String.eqb k key then (c'', a :: answers) else (c'', answers)
      | _, _ => (c'', answers)
      end
  end.

(** The time at which an occurrence takes place. *)
Definition time_of (o : occurrence) : Z :=
  match o with
  | request _ now | timer_fired _ now => now
  end.

(** The key accepted at [t0] is in the cache, and only its own timer, due
    a window later, can remove it. *)
Definition held (key : string) (t0 : Z) (c : cache) : Prop :=
  processed c !! key = Some t0 /\
  forall due, In (key, due) (timers c) -> due = (t0 + WINDOW_MS)%Z.

End Dedupe.

(** ** Records as the command-line tool writes them *)

Module Sample.
Import Json Parser.

Definition stream_event_record (event : value) : value :=
  VObj [("type", VStr "stream_event"); ("event", event)].

Definition content_block_start_record (block : value) : value :=
  stream_event_record
    (VObj [("type", VStr "content_block_start"); ("index", VNum "0");
           ("content_block", block)]).

Definition thinking_start : value :=
  content_block_start_record
    (VObj [("type", VStr "thinking"); ("thinking", VStr "")]).



Definition text_start : value :=
  content_block_start_record (VObj [("type", VStr "text"); ("text", VStr "")]).

Definition text_delta_record (text : string) : value :=
  stream_event_record
    (VObj [("type", VStr "content_block_delta"); ("index", VNum "0");
           ("delta", VObj [("type", VStr "text_delta"); ("text", VStr text)])]).


Definition message_stop_record : value :=
  stream_event_record (VObj [("type", VStr "message_stop")]).




Definition result_record (text : string) (is_error : bool) : value :=
  VObj [("type", VStr "result"); ("is_error", VBool is_error);
        ("result", VStr text); ("duration_ms", VNum "1200");
        ("total_cost_usd", VNum "0.0123"); ("num_turns", VNum "1")].

Definition fresh : state :=
  {| accumulatedText := ""; currentToolName := VNull; isThinking := false |}.

End Sample.

(** ** Further shapes of records and of event sequences *)

Module Shapes.
Import Json Parser.

(** A content-delta record of sub-kind text that carries the string [t]. *)
Definition text_delta_of (parsed : value) (t : string) : Prop :=
  get parsed "type" = VStr "stream_event" /\
  path parsed ["event"; "type"] = VStr "content_block_delta" /\
  path parsed ["event"; "delta"; "type"] = VStr "text_delta" /\
  path parsed ["event"; "delta"; "text"] = VStr t.

(** The [text_delta] events of the fragments [ts] on top of the text
    [acc]: each carries its fragment and the text so far. *)
Fixpoint running_deltas (acc : string) (ts : list string)
  : list ClaudeStreamEvent :=
  match ts with
  | [] => []
  | t :: rest => text_delta (VStr t) (acc ++ t) :: running_deltas (acc ++ t) rest
  end.

Definition concat_text (ts : list string) : string :=
  fold_right String.append "" ts.



(** The result of the first [complete] event. *)
Fixpoint first_complete (evs : list ClaudeStreamEvent) : option ClaudeResult :=
  match evs with
  | [] => None
  | complete res :: _ => Some res
  | _ :: rest => first_complete rest
  end.

End Shapes.

(** ** Further invariants of a run *)

Module RunShapes.
Import Json Parser Runner Shapes.

(** The promise holds the result of the first [complete] event, and the
    flag [resultResolved] is only set once there is one. *)
Definition first_wins (r : run) : Prop :=
  returned r = match first_complete (events r) with
               | Some res => fulfilled res
               | None => pending
               end /\
  (resultResolved r = true -> first_complete (events r) <> None).


End RunShapes.

(** ** Further notions for the updater, the cache and the prompt gate *)

Module MoreShapes.

(** Occurrences of the updater that are not events: ticks and settled
    updates. *)
Definition only_timer (o : Updater.occurrence) : bool :=
  match o with
  | Updater.interval_fired | Updater.update_settled _ => true
  | _ => false
  end.

(** The key admitted at [t0] is in the cache and its removal is pending. *)
Definition awaiting (key : string) (t0 : Z) (c : Dedupe.cache) : Prop :=
  Dedupe.held key t0 c /\
  In (key, (t0 + Dedupe.WINDOW_MS)%Z) (Dedupe.timers c).

(** No forbidden pattern starts anywhere in the prompt. *)
Definition clean (prompt : string) : Prop :=
  forall before rest,
    prompt = before ++ rest ->
    Prompt.alternation Prompt.FORBIDDEN_ALTERNATIVES rest = None.

(** A forbidden pattern starts somewhere in the prompt. *)
Definition forbidden (prompt : string) : Prop :=
  exists before rest,
    prompt = before ++ rest /\
    Prompt.alternation Prompt.FORBIDDEN_ALTERNATIVES rest <> None.

End MoreShapes.

From Stdlib Require DecimalFacts DecimalNat.

(** ** Strings as the helpers handle them *)

Module Text.

Definition len (s : string) : Z := Z.of_nat (String.length s).

(** White space and line terminators, the characters that [trim],
    [trimStart] and the class [\s] take, are those of the supervisor's
    [line.trim()]. *)
Abbreviation is_space := Runner.is_space (only parsing).
Abbreviation trimStart := Runner.trimStart (only parsing).
Abbreviation trimEnd := Runner.trimEnd (only parsing).
Abbreviation trim := Runner.trim (only parsing).

(** [s.substring(start, end)] for integer arguments: both are clamped to
    the string and swapped when out of order. *)
Definition substring (s : string) (start end_ : Z) : string :=
  let a := Z.min (Z.max start 0) (len s) in
  let b := Z.min (Z.max end_ 0) (len s) in
  String.substring (Z.to_nat (Z.min a b)) (Z.to_nat (Z.max a b - Z.min a b)) s.

(** An index as [slice] reads it: a negative one counts from the end of
    the string, and both kinds are clamped to the string. *)
Definition relative (s : string) (i : Z) : Z :=
  if (i <? 0)%Z then Z.max (len s + i) 0 else Z.min i (len s).

(** [s.slice(start, end)] for integer arguments, [None] for an omitted
    [end]. *)
Definition slice (s : string) (start : Z) (end_ : option Z) : string :=
  let from := relative s start in
  let to := match end_ with Some e => relative s e | None => len s end in
  String.substring (Z.to_nat from) (Z.to_nat (Z.max (to - from) 0)) s.

(** [s.lastIndexOf(c, position)] for a one-character search string: the
    largest index that is at most [position] (at least 0) and holds [c], or
    -1.  [i] is the index of the head of [s] and [found] the answer so
    far. *)
Fixpoint lastIndexOf_from (s : string) (c : ascii) (i limit found : Z) : Z :=
  match s with
  | EmptyString => found
  | String x s' =>
      lastIndexOf_from s' c (i + 1) limit
        (if Ascii.eqb x c && (i <=? limit)%Z then i else found)
  end.

Definition lastIndexOf (s : string) (c : ascii) (position : Z) : Z :=
  lastIndexOf_from s c 0 (Z.max position 0) (-1).

(** [s.replace(/c/g, by)] for a pattern that is the one character [c]. *)
Fixpoint replaceAll (c : ascii) (by_ : string) (s : string) : string :=
  match s with
  | EmptyString => EmptyString
  | String x s' =>
      if Ascii.eqb x c then by_ ++ replaceAll c by_ s'
      else String x (replaceAll c by_ s')
  end.

(** Whether the character occurs in the string. *)
Fixpoint occurs (c : ascii) (s : string) : bool :=
  match s with
  | EmptyString => false
  | String x s' => Ascii.eqb x c || occurs c s'
  end.

(** The string without its white space. *)
Fixpoint visible (s : string) : string :=
  match s with
  | EmptyString => EmptyString
  | String c s' => if is_space c then visible s' else String c (visible s')
  end.

End Text.

(** ** The message helpers ([escapeSlack], [splitMessage],
    slack-helpers.ts) *)

Module SlackHelpers.
Import Text.

Definition MAX_MESSAGE_LENGTH : Z := 2500.

Definition escapeSlack (text : string) : string :=
  replaceAll ">" "&gt;" (replaceAll "<" "&lt;" (replaceAll "&" "&amp;" text)).

(** What one character becomes in [escapeSlack]. *)
Definition escaped (c : ascii) : string :=
  if Ascii.eqb c "&" then "&amp;"
  else if Ascii.eqb c "<" then "&lt;"
  else if Ascii.eqb c ">" then "&gt;"
  else String c "".

Definition newline : ascii := "010"%char.

(** Where the loop of [splitMessage] cuts: at the last line break within
    the first [maxLen + 1] characters, else at the last space, else at
    [maxLen]; a break or a space at index 0 does not count. *)
Definition split_index (remaining : string) (maxLen : Z) : Z :=
  let splitIdx := lastIndexOf remaining newline maxLen in
  let splitIdx :=
    if (splitIdx <=? 0)%Z then lastIndexOf remaining " " maxLen else splitIdx in
  if (splitIdx <=? 0)%Z then maxLen else splitIdx.

(** The [while] loop of [splitMessage]; [fuel] bounds the number of its
    iterations, and [None] says that they did not suffice. *)
Fixpoint split_loop (fuel : nat) (maxLen : Z) (remaining : string)
    (chunks : list string) : option (list string) :=
  match fuel with
  | O => None
  | S fuel' =>
      if (0 <? len remaining)%Z then
        if (len remaining <=? maxLen)%Z then Some (chunks ++ [remaining])%list
        else
          let splitIdx := split_index remaining maxLen in
          split_loop fuel' maxLen
            (trimStart (slice remaining splitIdx None))
            (chunks ++ [slice remaining 0 (Some splitIdx)])%list
      else Some chunks
  end.

Definition splitMessage (fuel : nat) (text : string) (maxLen : Z)
  : option (list string) :=
  if (len text <=? maxLen)%Z then Some [text]
  else split_loop fuel maxLen text [].

Definition concat_chunks (chunks : list string) : string :=
  fold_right String.append "" chunks.

(** A non-negative integer as a template literal writes it. *)
Definition decimal (n : nat) : string := NilZero.string_of_uint (Nat.to_uint n).

(** [formatResult], from the plain text and the footer that it computes
    out of the result and the directory: one message when the text fits
    beside the footer, else the chunks of [splitMessage], numbered when
    there are several, the footer on the last. *)
Definition formatResult (fuel : nat) (plain footer : string)
  : option (list string) :=
  let footerLen := (len footer + 10)%Z in
  let contentMax := (MAX_MESSAGE_LENGTH - footerLen)%Z in
  if (len plain <=? contentMax)%Z then Some [plain ++ footer]
  else
    match splitMessage fuel plain (contentMax - 20) with
    | None => None
    | Some chunks =>
        Some (imap (fun i chunk =>
                let header :=
                  if (1 <? length chunks)%nat
                  then "(" ++ decimal (i + 1) ++ "/" ++ decimal (length chunks)
                       ++ ")" ++ String newline ""
                  else "" in
                let foot :=
                  if (i =? length chunks - 1)%nat then footer else "" in
                (header ++ chunk) ++ foot) chunks)
    end.

End SlackHelpers.

(** ** Sending a message ([safeSend], index.ts) *)

Module Sender.
Import Json Text.

(** The [opts] argument: each field is present or not. *)
Record opts : Type := mkOpts {
  thread_ts : option string;
  update_ts : option string
}.

(** The calls of the Slack client. *)
Inductive api_call : Type :=
| chat_update (ts text : string)
| chat_postMessage (thread : option string) (text : string).

(** What awaiting a call gives: it resolves, or it rejects with a value. *)
Inductive outcome : Type :=
| resolved
| rejected (err : value).

Definition MAX : Z := 3900.

Definition truncated (text : string) : string :=
  if (MAX <? len text)%Z
  then substring text 0 MAX ++ String SlackHelpers.newline "...(truncated)"
  else text.

(** [if (opts.update_ts)]: the field is there and not the empty string. *)
Definition call_for (o : opts) (text : string) : api_call :=
  match update_ts o with
  | Some ts =>
      if String.eqb ts "" then chat_postMessage (thread_ts o) text
      else chat_update ts text
  | None => chat_postMessage (thread_ts o) text
  end.

(** [v?.key]. *)
Definition optional (v : value) (key : string) : value :=
  if nullish v then VUndefined else get v key.

Definition TOO_LONG_NOTE : string := "...(메시지가 너무 길어 잘렸습니다)".

(** [safeSend(client, channel, text, opts)], given the outcomes of its
    first call and of the call it may make after that: the calls made, in
    order, and whether the promise rejects.  A rejection of the first call
    is caught; only [msg_too_long] leads to a second call, with a shorter
    text, and nothing catches a rejection of that one. *)
Definition safeSend (text : string) (o : opts) (first second : outcome)
  : list api_call * bool :=
  match first with
  | resolved => ([call_for o (truncated text)], false)
  | rejected err =>
      if strict_eq (optional (optional err "data") "error")
                   (VStr "msg_too_long")
      then
        let shorter :=
          substring (truncated text) 0 2000
          ++ String SlackHelpers.newline TOO_LONG_NOTE in
        ([call_for o (truncated text); call_for o shorter],
         match second with resolved => false | rejected _ => true end)
      else ([call_for o (truncated text)], false)
  end.

End Sender.

(** ** Prompt sanitizing ([sanitizePrompt], claude.ts) *)

Module Sanitizer.
Import Text.

(** The class [[\w-]]. *)
Definition is_name_char (c : ascii) : bool :=
  let n := nat_of_ascii c in
  ((48 <=? n)%nat && (n <=? 57)%nat) || ((65 <=? n)%nat && (n <=? 90)%nat) ||
  ((97 <=? n)%nat && (n <=? 122)%nat) || (n =? 95)%nat || (n =? 45)%nat.

(** [--[\w-]+] read at the head of [s]: two hyphens and at least one more
    character of the class. *)
Definition starts_flag (s : string) : bool :=
  match s with
  | String "-" (String "-" (String c _)) => is_name_char c
  | _ => false
  end.

(** The replacement of the matches of [/(?:^|\s)--[\w-]+/g] that begin
    with a white-space character: the character stays and the two hyphens
    after it go, which are the first two adjacent hyphens of the match.
    The scan resumes behind the match; up to there the characters are those
    of the name, none of which is white space, so no match begins at them
    and they are copied. *)
Fixpoint replace_flags (s : string) : string :=
  match s with
  | EmptyString => EmptyString
  | String c s' =>
      if is_space c && starts_flag s' then
        match s' with
        | String _ (String _ rest) => String c (replace_flags rest)
        | _ => String c (replace_flags s')
        end
      else String c (replace_flags s')
  end.

(** The whole replacement: at index 0 the alternative [^] is tried first,
    and a match there loses its two leading hyphens. *)
Definition replace_all_flags (s : string) : string :=
  if starts_flag s then
    match s with
    | String _ (String _ rest) => replace_flags rest
    | _ => replace_flags s
    end
  else replace_flags s.

Definition sanitizePrompt (prompt : string) : string :=
  let sanitized := substring prompt 0 Prompt.MAX_PROMPT_LENGTH in
  let sanitized := replace_all_flags sanitized in
  trim sanitized.

(** Every character is of the class [[\w-]]. *)
Fixpoint is_name (s : string) : bool :=
  match s with
  | EmptyString => true
  | String c s' => is_name_char c && is_name s'
  end.

(** No two hyphens are adjacent. *)
Fixpoint no_hyphen_pair (s : string) : bool :=
  match s with
  | String "-" (String "-" _) => false
  | String _ s' => no_hyphen_pair s'
  | EmptyString => true
  end.

End Sanitizer.

(** ** The environment of the child process ([runClaudeStream],
    claude.ts) *)

Module Environment.

Definition env : Type := gmap string string.

(** [Object.keys(env)]. *)
Definition keys (e : env) : list string := (map_to_list e).*1.

(** The loop over the keys: each key that starts with [CLAUDE] is deleted
    from the copy. *)
Definition scrub_keys (ks : list string) (e : env) : env :=
  fold_left (fun e key => if String.prefix "CLAUDE" key then delete key e else e)
            ks e.

(** The environment passed to [spawn], from [process.env]. *)
Definition child_env (process_env : env) : env :=
  scrub_keys (keys process_env) process_env.

End Environment.

(** * Properties *)

Import Json Parser.

(** ** Values *)

Lemma get_VStr_object (v : value) (key s : string) :
  get v key = VStr s -> nullish v = false /\ truthy v = true.
Proof. destruct v; simpl; intros H; try discriminate; auto. Qed.

Lemma get_truthy_object (v : value) (key : string) :
  truthy (get v key) = true -> nullish v = false /\ truthy v = true.
Proof. destruct v; simpl; intros H; try discriminate; auto. Qed.

Lemma tagged_VStr (s t : string) : tagged (VStr s) t = String.eqb s t.
Proof. reflexivity. Qed.

Lemma state_eta (s : state) :
  mkState (accumulatedText s) (currentToolName s) (isThinking s) = s.
Proof. destruct s; reflexivity. Qed.

(** ** The parser *)

Ltac parser_unfold :=
  unfold parseStreamLine, JSON_parse, dispatch, stream_event,
    content_block_start, content_block_delta, assistant, user, result,
    prop, seq, read, skip, return_, throw, onEvent, assign.


Lemma strict_eq_VStr (v : value) (t : string) :
  strict_eq v (VStr t) = true -> v = VStr t.
Proof.
  destruct v; simpl; try discriminate.
  intros H. apply String.eqb_eq in H. congruence.
Qed.


(** A content-start record of sub-kind thinking emits [thinking] once: the
    flag latches. *)
Lemma thinking_start_spec (parsed : value) (s : state) :
  content_start parsed "thinking" ->
  parseStreamLine (Parseable parsed) s =
    if isThinking s then (s, [], false)
    else (set_isThinking true s, [thinking], false).
Proof.
  intros (Htype & Hevent & Hkind). unfold path in *. simpl in *.
  destruct (get_VStr_object _ _ _ Htype) as [Hn1 _].
  destruct (get_VStr_object _ _ _ Hevent) as [Hn2 Ht2].
  destruct (get_VStr_object _ _ _ Hkind) as [Hn3 Ht3].
  parser_unfold.
  rewrite ?Hn1, ?Htype; simpl.
  rewrite ?Ht2, ?Hn2, ?Hevent; simpl.
  rewrite ?Ht3, ?Hn3, ?Hkind; simpl.
  destruct (isThinking s); reflexivity.
Qed.


Lemma unparseable_noop (raw : string) (s : state) :
  parseStreamLine (Unparseable raw) s = (s, [], false).
Proof. reflexivity. Qed.

(** ** Frame conditions of statements *)

Section Frame.
Context (p : ClaudeStreamEvent -> bool) {A : Type} (f : state -> A).

Lemma framed_skip : framed p f skip.
Proof. split; intros s; reflexivity. Qed.

Lemma framed_return : framed p f return_.
Proof. split; intros s; reflexivity. Qed.

Lemma framed_throw : framed p f throw.
Proof. split; intros s; reflexivity. Qed.

Lemma framed_onEvent (e : ClaudeStreamEvent) : p e = false -> framed p f (onEvent e).
Proof. intros H. split; intros s; simpl; [rewrite H|]; reflexivity. Qed.

Lemma framed_assign (g : state -> state) :
  (forall s, f (g s) = f s) -> framed p f (assign g).
Proof. intros H. split; intros s; simpl; auto. Qed.

Lemma framed_seq (a b : stmt) : framed p f a -> framed p f b -> framed p f (seq a b).
Proof.
  intros [Ha1 Ha2] [Hb1 Hb2]. split; intros s; unfold seq.
  - specialize (Ha1 s). destruct (a s) as [[s1 e1] c1]. simpl in Ha1.
    destruct c1; simpl; auto.
    specialize (Hb1 s1). destruct (b s1) as [[s2 e2] c2]. simpl in *.
    rewrite List.filter_app, Ha1, Hb1. reflexivity.
  - specialize (Ha2 s). destruct (a s) as [[s1 e1] c1]. simpl in Ha2.
    destruct c1; simpl; auto.
    specialize (Hb2 s1). destruct (b s1) as [[s2 e2] c2]. simpl in *.
    congruence.
Qed.

Lemma framed_read (k : state -> stmt) : (forall s, framed p f (k s)) -> framed p f (read k).
Proof.
  intros H. split; intros s; unfold read.
  - apply (proj1 (H s)).
  - apply (proj2 (H s)).
Qed.

Lemma framed_prop (v : value) (key : string) (k : value -> stmt) :
  (nullish v = false -> framed p f (k (get v key))) -> framed p f (prop v key k).
Proof.
  intros H. unfold prop.
  destruct (nullish v); [apply framed_throw|apply H; reflexivity].
Qed.

Lemma framed_if (c : bool) (a b : stmt) :
  framed p f a -> framed p f b -> framed p f (if c then a else b).
Proof. destruct c; auto. Qed.

Lemma framed_for_of (xs : list value) (body : value -> stmt) :
  (forall x, In x xs -> framed p f (body x)) -> framed p f (for_of xs body).
Proof.
  induction xs as [|x xs IH]; intros H; simpl.
  - apply framed_skip.
  - apply framed_seq; [apply H; left; reflexivity|].
    apply IH. intros y Hy. apply H. right. exact Hy.
Qed.

End Frame.

Create HintDb frame.
#[export] Hint Resolve framed_skip framed_return framed_throw framed_seq
  framed_read framed_prop framed_if framed_assign : frame.

(** What [parseStreamLine] does follows from what the dispatched statement
    does. *)
Lemma parseStreamLine_framed {A : Type} (p : ClaudeStreamEvent -> bool)
    (f : state -> A) (parsed : value) (s : state) :
  framed p f (dispatch parsed) ->
  List.filter p (parseStreamLine (Parseable parsed) s).1.2 = [] /\
  f (parseStreamLine (Parseable parsed) s).1.1 = f s.
Proof.
  intros [H1 H2]. specialize (H1 s). specialize (H2 s).
  unfold parseStreamLine. simpl.
  destruct (dispatch parsed s) as [[s' evs] c]. simpl in *. auto.
Qed.

Lemma framed_result (p : ClaudeStreamEvent -> bool) {A : Type} (f : state -> A)
    (parsed : value) :
  (forall r, p (complete r) = false) -> framed p f (result parsed).
Proof.
  intros Hp. unfold result.
  repeat (apply framed_prop; intros _). apply framed_read; intros s.
  apply framed_seq.
  - destruct (get parsed "total_cost_usd"); auto with frame.
  - apply framed_onEvent. apply Hp.
Qed.


Ltac frame_step :=
  lazymatch goal with
  | |- framed _ _ skip => apply framed_skip
  | |- framed _ _ return_ => apply framed_return
  | |- framed _ _ throw => apply framed_throw
  | |- framed _ _ (onEvent _) => apply framed_onEvent; reflexivity
  | |- framed _ _ (assign _) => apply framed_assign; intros ?; reflexivity
  | |- framed _ _ (seq _ _) => apply framed_seq
  | |- framed _ _ (read _) => apply framed_read; intros ?
  | |- framed _ _ (prop _ _ _) => apply framed_prop; intros _
  | |- framed _ _ (if _ then _ else _) => apply framed_if
  | |- framed _ _ (let _ := _ in _) => cbv zeta
  | |- framed _ _ (for_of _ _) =>
      apply framed_for_of; intros ? _; unfold assistant_block
  | |- framed _ _ (match ?x with _ => _ end) => destruct x
  end.

Ltac frame := repeat frame_step.

(** Only a result record makes the parser emit [complete]. *)
Lemma no_complete_unless_result (parsed : value) (s : state) :
  is_result_line (Parseable parsed) = false ->
  List.filter is_complete (parseStreamLine (Parseable parsed) s).1.2 = [].
Proof.
  intros H. simpl in H. unfold tagged in H.
  apply (parseStreamLine_framed is_complete nothing).
  unfold dispatch. apply framed_prop; intros _. rewrite H.
  unfold stream_event, content_block_start, content_block_delta,
    assistant, user.
  frame.
Qed.

(** A result record emits [complete] and nothing else, unless the cost it
    carries makes the log line raise; the state is not written. *)
Lemma result_line_spec (parsed : value) (s : state) :
  is_result_line (Parseable parsed) = true ->
  (exists r, parseStreamLine (Parseable parsed) s = (s, [complete r], false)) \/
  parseStreamLine (Parseable parsed) s = (s, [], true).
Proof.
  simpl. intros H. apply strict_eq_VStr in H.
  destruct (get_VStr_object _ _ _ H) as [Hn _].
  parser_unfold. rewrite ?Hn, ?H. simpl.
  destruct (get parsed "total_cost_usd"); simpl; eauto.
Qed.














(** The one value that parses and has no properties: reading the type tag
    of [null] raises, with no event and the state as it was. *)
Lemma null_record_raises (s : state) :
  parseStreamLine (Parseable VNull) s = (s, [], true).
Proof. reflexivity. Qed.

(** The accumulated text stands in for an empty [result] field. *)
Example text_then_empty_result :
  (parseStream
     [Parseable (Sample.text_delta_record "Hi");
      Parseable (Sample.result_record "" false)]
     Sample.fresh).2
  = [text_delta (VStr "Hi") "Hi";
     complete {| success := true; output := VStr "Hi"; timedOut := false;
                 exitCode := Some 0%Z; durationMs := VNum "1200";
                 costUsd := VNum "0.0123"; numTurns := VNum "1" |}].
Proof. reflexivity. Qed.

(** ** The accumulated text only grows *)

Lemma nondecreasing_chain (lo mid : nat) (xs ys : list nat) :
  nondecreasing_from lo (xs ++ [mid]) = true ->
  nondecreasing_from mid ys = true ->
  nondecreasing_from lo (xs ++ ys) = true.
Proof.
  revert lo. induction xs as [|x xs IH]; intros lo Hx Hy; simpl in *.
  - apply andb_prop in Hx as [Hlo _]. apply Nat.leb_le in Hlo.
    destruct ys as [|y ys]; [reflexivity|]. simpl in *.
    apply andb_prop in Hy as [Hy1 Hy2]. apply Nat.leb_le in Hy1.
    rewrite Hy2, andb_true_r. apply Nat.leb_le. lia.
  - apply andb_prop in Hx as [Hlo Hx]. rewrite Hlo. simpl. apply IH; assumption.
Qed.

Lemma grows_at_same (s : state) (a : stmt) :
  (a s).1.2 = [] -> accumulatedText (a s).1.1 = accumulatedText s ->
  grows_at s a.
Proof.
  intros He Hs. unfold grows_at. rewrite He, Hs. simpl.
  rewrite Nat.leb_refl. reflexivity.
Qed.

Lemma grows_at_seq (s : state) (a b : stmt) :
  grows_at s a -> (forall s1, grows_at s1 b) -> grows_at s (seq a b).
Proof.
  unfold grows_at, seq. intros Ha Hb.
  destruct (a s) as [[s1 e1] c1]. simpl in Ha.
  destruct c1; simpl; try exact Ha.
  specialize (Hb s1). destruct (b s1) as [[s2 e2] c2]. simpl in *.
  unfold accumulated_lengths in *. rewrite flat_map_app, <- app_assoc.
  apply (nondecreasing_chain _ (String.length (accumulatedText s1))); assumption.
Qed.

Lemma grows_at_read (s : state) (k : state -> stmt) :
  grows_at s (k s) -> grows_at s (read k).
Proof. intros H. exact H. Qed.

Lemma grows_at_prop (s : state) (v : value) (key : string) (k : value -> stmt) :
  grows_at s (k (get v key)) -> grows_at s (prop v key k).
Proof.
  intros H. unfold prop. destruct (nullish v); [|exact H].
  apply grows_at_same; reflexivity.
Qed.

Lemma grows_at_framed (s : state) (a : stmt) :
  framed (fun e => match e with text_delta _ _ => true | _ => false end)
         accumulatedText a ->
  grows_at s a.
Proof.
  intros [He Hs]. specialize (He s). specialize (Hs s). unfold grows_at.
  rewrite Hs.
  assert (Hnone : accumulated_lengths (a s).1.2 = []).
  { revert He. generalize (a s).1.2. intros evs.
    induction evs as [|e evs IH]; [reflexivity|].
    simpl. destruct e; simpl; try discriminate; exact IH. }
  rewrite Hnone. simpl. rewrite Nat.leb_refl. reflexivity.
Qed.

Lemma grows_at_delta (s : state) (event : value) :
  grows_at s (content_block_delta event).
Proof.
  unfold content_block_delta.
  apply grows_at_prop.
  destruct (negb (truthy (get event "delta")));
    [apply grows_at_same; reflexivity|].
  apply grows_at_prop.
  destruct (strict_eq _ _); [|apply grows_at_same; reflexivity].
  apply grows_at_prop, grows_at_read. cbv zeta.
  set (text := get (get event "delta") "text").
  apply grows_at_seq.
  { unfold grows_at. simpl. rewrite andb_true_r. apply Nat.leb_le.
    clear. induction (accumulatedText s) as [|c a IH]; simpl; lia. }
  intros s1. apply grows_at_seq; [apply grows_at_same; reflexivity|].
  intros s2. apply grows_at_seq.
  { destruct (_ =? _)%nat; [destruct text|]; apply grows_at_same; reflexivity. }
  intros s3. unfold grows_at, read. simpl.
  rewrite !Nat.leb_refl. reflexivity.
Qed.

Lemma grows_at_dispatch (s : state) (parsed : value) :
  grows_at s (dispatch parsed).
Proof.
  unfold dispatch. apply grows_at_prop.
  apply grows_at_seq; [|intros s1; apply grows_at_framed].
  - destruct (strict_eq _ _); [|apply grows_at_same; reflexivity].
    unfold stream_event. apply grows_at_prop.
    destruct (negb (truthy (get parsed "event")));
      [apply grows_at_same; reflexivity|].
    apply grows_at_prop.
    destruct (strict_eq _ _).
    + apply grows_at_framed. unfold content_block_start. frame.
    + destruct (strict_eq _ _); [apply grows_at_delta|].
      apply grows_at_same; reflexivity.
  - unfold assistant, user. repeat apply framed_seq; frame.
    apply framed_result. reflexivity.
Qed.

(** The lengths of the accumulated text carried by the [text_delta] events
    of a stream never decrease, from any parser state. *)
Theorem accumulated_text_grows (ls : list line) (s : state) :
  nondecreasing_from (String.length (accumulatedText s))
    (accumulated_lengths (parseStream ls s).2) = true.
Proof.
  assert (H : nondecreasing_from (String.length (accumulatedText s))
                (accumulated_lengths (parseStream ls s).2 ++
                 [String.length (accumulatedText (parseStream ls s).1)])%list
              = true).
  { revert s. induction ls as [|l ls IH]; intros s.
    - simpl. rewrite Nat.leb_refl. reflexivity.
    - assert (Hl : nondecreasing_from (String.length (accumulatedText s))
                     (accumulated_lengths (parseStreamLine l s).1.2 ++
                      [String.length (accumulatedText (parseStreamLine l s).1.1)])%list
                   = true).
      { destruct l as [raw|parsed].
        - simpl. rewrite Nat.leb_refl. reflexivity.
        - pose proof (grows_at_dispatch s parsed) as Hd. unfold grows_at in Hd.
          unfold parseStreamLine. simpl.
          destruct (dispatch parsed s) as [[s1 e1] c1]. exact Hd. }
      simpl. destruct (parseStreamLine l s) as [[s1 e1] c1]. simpl in Hl.
      specialize (IH s1). destruct (parseStream ls s1) as [s2 e2]. simpl in *.
      unfold accumulated_lengths in *. rewrite flat_map_app, <- app_assoc.
      apply (nondecreasing_chain _ (String.length (accumulatedText s1)));
        assumption. }
  revert H. generalize (accumulated_lengths (parseStream ls s).2).
  generalize (String.length (accumulatedText s)).
  intros lo ns. revert lo. induction ns as [|n ns IH]; intros lo H; [reflexivity|].
  simpl in *. apply andb_prop in H as [H1 H2]. rewrite H1. simpl. apply IH, H2.
Qed.
(** ** The supervisor: lines that change nothing *)

Import Runner.

Lemma set_state_same (r : run) : set_state (state r) r = r.
Proof. destruct r; reflexivity. Qed.

Lemma deliver_silent_line (l : line) (r : run) :
  parseStreamLine l (state r) = (state r, [], false) ->
  deliver r (line_read l) = r.
Proof.
  intros H. simpl. destruct (rl r); [|reflexivity].
  unfold on_line. destruct (blank l); [reflexivity|].
  rewrite H. simpl. apply set_state_same.
Qed.

Lemma exec_app (r : run) (tr1 tr2 : list occurrence) :
  exec r (tr1 ++ tr2) = exec (exec r tr1) tr2.
Proof. apply fold_left_app. Qed.

Lemma exec_cons (r : run) (o : occurrence) (tr : list occurrence) :
  exec r (o :: tr) = exec (deliver r o) tr.
Proof. reflexivity. Qed.

Lemma exec_filter (keep : occurrence -> bool) (tr : list occurrence) :
  (forall o r, keep o = false -> deliver r o = r) ->
  forall r, exec r (List.filter keep tr) = exec r tr.
Proof.
  intros Hdrop. induction tr as [|o tr IH]; intros r; [reflexivity|].
  simpl. destruct (keep o) eqn:Hk; simpl.
  - apply IH.
  - rewrite (Hdrop o r Hk). apply IH.
Qed.

Lemma parseStream_filter_parseable (ls : list line) :
  forall s, parseStream (List.filter parseable ls) s = parseStream ls s.
Proof.
  induction ls as [|l ls IH]; intros s; [reflexivity|].
  destruct l as [raw|parsed]; simpl.
  - rewrite IH. destruct (parseStream ls s); reflexivity.
  - destruct (parseStreamLine (Parseable parsed) s) as [[s1 e1] c].
    rewrite IH. reflexivity.
Qed.

(** C4.  Malformed records are skipped without a trace: a line that does not
    parse leaves the parser state as it is, emits no event and raises
    nothing; the events and the final state of a record stream are those of
    the stream without its malformed records; and so is the whole run, for
    every sequence of occurrences. *)
Theorem malformed_records_are_skipped :
  (forall raw s, parseStreamLine (Unparseable raw) s = (s, [], false)) /\
  (forall ls s, parseStream (List.filter parseable ls) s = parseStream ls s) /\
  (forall r trace, exec r (List.filter well_formed trace) = exec r trace).
Proof.
  split; [reflexivity|]. split; [intros; apply parseStream_filter_parseable|].
  intros r trace. apply exec_filter.
  intros [[raw|parsed]| | | | |] r' Hk; simpl in Hk; try discriminate.
  apply deliver_silent_line. reflexivity.
Qed.




(** ** The supervisor: timers and signals *)

Lemma forward_control (r : run) (e : ClaudeStreamEvent) :
  control (forward r e) = control r.
Proof.
  unfold forward. destruct e; try reflexivity.
  simpl. destruct (resultResolved r); reflexivity.
Qed.

Lemma fold_forward_control (evs : list ClaudeStreamEvent) (r : run) :
  control (fold_left forward evs r) = control r.
Proof.
  revert r. induction evs as [|e evs IH]; intros r; [reflexivity|].
  simpl. rewrite IH. apply forward_control.
Qed.

Lemma on_line_control (l : line) (r : run) : control (on_line l r) = control r.
Proof.
  unfold on_line. destruct (blank l); [reflexivity|].
  destruct (parseStreamLine l (state r)) as [[s evs] raised].
  destruct raised; simpl.
  - change (control (fold_left forward evs (set_state s r)) = control r).
    rewrite fold_forward_control. reflexivity.
  - rewrite fold_forward_control. reflexivity.
Qed.

Lemma escalation_control (due0 : Z) (r r' : run) :
  control r' = control r -> escalation due0 r -> escalation due0 r'.
Proof.
  unfold control. intros H [H1 H2 H3 H4 H5].
  injection H as E1 E2 E3 E4 E5 E6 E7 E8 E9 E10.
  constructor; rewrite ?E2, ?E3, ?E5, ?E7, ?E8, ?E9, ?E10; assumption.
Qed.

Lemma escalation_start (timeoutMs start now : Z) (child_pid : option Z) :
  escalation (now + timeoutMs)
    (runClaudeStream timeoutMs start (spawn_returns child_pid) now).
Proof.
  constructor; simpl; try reflexivity; try discriminate.
  - intros due H. injection H as <-. split; reflexivity.
  - intros _. repeat split.
Qed.

Lemma escalation_deliver (due0 : Z) (r : run) (o : occurrence) :
  escalation due0 r -> escalation due0 (deliver r o).
Proof.
  intros Inv. destruct o as [l|now|now| |code now|message now]; simpl.
  - destruct (rl r); [|exact Inv].
    apply (escalation_control due0 r); [apply on_line_control|exact Inv].
  - destruct (timer r) as [due|] eqn:Ht; [|exact Inv].
    destruct (due <=? now)%Z; [|exact Inv].
    destruct Inv as [H1 H2 H3 H4 H5].
    destruct (H3 due Ht) as [-> Hk]. destruct (H4 Hk) as (Hkills & Hkt & Hex).
    unfold on_timer. simpl. rewrite H2, Hk. simpl.
    constructor; simpl; try assumption; try reflexivity; try discriminate.
    intros _. repeat split. exists []. rewrite Hkills. split; reflexivity.
  - destruct (killTimer r) as [due|] eqn:Hkt; [|exact Inv].
    destruct (due <=? now)%Z; [|exact Inv].
    destruct Inv as [H1 H2 H3 H4 H5].
    unfold on_killTimer. simpl.
    destruct (pid r) as [p|]; [destruct (p =? 0)%Z|];
      constructor; simpl; try assumption;
      try (intros Hk; destruct (H4 Hk) as (_ & Hn & _); congruence);
      intros Hk; destruct (H5 Hk) as (Ha & Hb & rest & Hc & Hd);
      repeat split; try assumption.
    + exists rest. split; [exact Hc|]. intros Hx. contradiction.
    + exists (rest ++ [kill_group p SIGKILL])%list. rewrite Hc.
      split; [reflexivity|]. intros Hx. contradiction.
    + exists rest. split; [exact Hc|]. intros Hx. contradiction.
  - destruct (exit_clears_killTimer r) eqn:Hex; [|exact Inv].
    destruct Inv as [H1 H2 H3 H4 H5]. unfold on_exit.
    constructor; simpl; try assumption.
    + intros Hk. destruct (H4 Hk) as (Ha & Hb & Hc). congruence.
    + intros Hk. destruct (H5 Hk) as (Ha & Hb & rest & Hc & Hd).
      repeat split; try assumption. exists rest. split; [exact Hc|].
      intros Hx. contradiction.
  - destruct (child r) eqn:Hc; [|exact Inv].
    destruct Inv as [H1 H2 H3 H4 H5]. unfold on_close. simpl.
    destruct (resultResolved r); simpl;
      constructor; simpl; try assumption; try discriminate;
      intros Hk; destruct (H5 Hk) as (Ha & Hb & Hrest); repeat split; assumption.
  - destruct (child r) eqn:Hc; [|exact Inv].
    destruct Inv as [H1 H2 H3 H4 H5]. unfold on_error. simpl.
    destruct (resultResolved r); simpl;
      constructor; simpl; try assumption; try discriminate;
      intros Hk; destruct (H5 Hk) as (Ha & Hb & Hrest); repeat split; assumption.
Qed.

Lemma escalation_exec (due0 : Z) (trace : list occurrence) :
  forall r, escalation due0 r -> escalation due0 (exec r trace).
Proof.
  induction trace as [|o trace IH]; intros r Inv; [exact Inv|].
  rewrite exec_cons. apply IH, escalation_deliver, Inv.
Qed.

Lemma control_timer (r r' : run) :
  control r' = control r ->
  timer r' = timer r /\ killTimer r' = killTimer r /\ kills r' = kills r.
Proof.
  unfold control. intros H.
  injection H as E1 E2 E3 E4 E5 E6 E7 E8 E9 E10. auto.
Qed.

(** With no timer pending, nothing sends a signal any more. *)
Lemma no_timer_no_signal (trace : list occurrence) :
  forall r, timer r = None -> killTimer r = None ->
            kills (exec r trace) = kills r.
Proof.
  induction trace as [|o trace IH]; intros r Ht Hk; [reflexivity|].
  rewrite exec_cons.
  assert (H : timer (deliver r o) = None /\ killTimer (deliver r o) = None /\
              kills (deliver r o) = kills r).
  { destruct o as [l|now|now| |code now|message now]; simpl.
    - destruct (rl r); [|auto].
      destruct (control_timer _ _ (on_line_control l r)) as (-> & -> & ->). auto.
    - rewrite Ht. auto.
    - rewrite Hk. auto.
    - destruct (exit_clears_killTimer r); auto.
    - destruct (child r); [|auto]. unfold on_close. simpl.
      destruct (resultResolved r); simpl; auto.
    - destruct (child r); [|auto]. unfold on_error. simpl.
      destruct (resultResolved r); simpl; auto. }
  destruct H as (Ht' & Hk' & Hkills). rewrite (IH _ Ht' Hk'). exact Hkills.
Qed.





(** ** The supervisor: the [complete] event *)

Lemma fold_forward_no_complete (evs : list ClaudeStreamEvent) :
  List.filter is_complete evs = [] ->
  forall r, fold_left forward evs r = set_events (events r ++ evs)%list r.
Proof.
  induction evs as [|e evs IH]; intros H r; simpl.
  - rewrite app_nil_r. destruct r; reflexivity.
  - destruct e; simpl in H; try discriminate;
      rewrite (IH H); unfold forward, emit, set_events; simpl;
      rewrite <- app_assoc; reflexivity.
Qed.

Lemma quiet_deliver (r : run) (o : occurrence) :
  quiet o = true -> shape (deliver r o) = shape r.
Proof.
  destruct o as [l|now|now| |code now|message now]; simpl;
    intros H; try discriminate.
  - destruct (timer r); [|reflexivity]. destruct (_ <=? _)%Z; [|reflexivity].
    unfold on_timer. simpl. destruct (negb (killAttempted r)); reflexivity.
  - destruct (killTimer r); [|reflexivity]. destruct (_ <=? _)%Z; [|reflexivity].
    unfold on_killTimer, set_killTimer. simpl.
    destruct (pid r) as [q|]; [|reflexivity]. destruct (q =? 0)%Z; reflexivity.
  - destruct (exit_clears_killTimer r); reflexivity.
Qed.

Lemma quiet_exec (trace : list occurrence) :
  forallb quiet trace = true -> forall r, shape (exec r trace) = shape r.
Proof.
  induction trace as [|o trace IH]; intros H r; [reflexivity|].
  simpl in H. apply andb_prop in H as [Ho Htrace].
  rewrite exec_cons, (IH Htrace). apply quiet_deliver, Ho.
Qed.

Lemma quiet_result_read_last (trace : list occurrence) :
  forallb quiet trace = true -> result_read_last trace = true.
Proof.
  induction trace as [|o trace IH]; intros H; [reflexivity|].
  simpl in H. apply andb_prop in H as [Ho Htrace].
  unfold quiet in Ho. apply andb_prop in Ho as [Hl He].
  simpl. rewrite He. simpl. destruct o; try discriminate; auto.
Qed.

Lemma close_open_run (r : run) (code : option Z) (now : Z) :
  open_run r ->
  exists res,
    events (deliver r (child_close code now)) = (events r ++ [complete res])%list /\
    returned (deliver r (child_close code now)) = fulfilled res.
Proof.
  intros (Hc & _ & Hres & Hret). simpl. rewrite Hc. unfold on_close. simpl.
  rewrite Hres. simpl. rewrite Hret. eexists. split; reflexivity.
Qed.

Lemma close_resolved_run (r : run) (code : option Z) (now : Z) :
  resultResolved r = true ->
  events (deliver r (child_close code now)) = events r /\
  returned (deliver r (child_close code now)) = returned r.
Proof.
  intros Hres. simpl. destruct (child r); [|auto]. unfold on_close. simpl.
  rewrite Hres. simpl. auto.
Qed.

Lemma line_open_run (r : run) (l : line) :
  open_run r -> is_result_line l = false ->
  open_run (deliver r (line_read l)) /\
  exists evs, events (deliver r (line_read l)) = (events r ++ evs)%list /\
              List.filter is_complete evs = [].
Proof.
  intros (Hc & Hrl & Hres & Hret) Hl. simpl. rewrite Hrl. unfold on_line.
  destruct (blank l).
  { split; [repeat split; assumption|]. exists []. rewrite app_nil_r. auto. }
  assert (Hno : List.filter is_complete (parseStreamLine l (state r)).1.2 = []).
  { destruct l as [raw|parsed]; [reflexivity|].
    apply no_complete_unless_result, Hl. }
  destruct (parseStreamLine l (state r)) as [[s evs] raised]. simpl in Hno.
  rewrite (fold_forward_no_complete evs Hno).
  destruct raised; simpl; (split; [repeat split; assumption|]);
    exists evs; auto.
Qed.

Lemma result_line_deliver (r : run) (l : line) :
  open_run r -> is_result_line l = true ->
  (exists res,
     events (deliver r (line_read l)) = (events r ++ [complete res])%list /\
     returned (deliver r (line_read l)) = fulfilled res /\
     resultResolved (deliver r (line_read l)) = true) \/
  (open_run (deliver r (line_read l)) /\
   events (deliver r (line_read l)) = events r).
Proof.
  intros (Hc & Hrl & Hres & Hret) Hl. simpl. rewrite Hrl. unfold on_line.
  destruct l as [raw|parsed]; [discriminate|]. simpl.
  destruct (result_line_spec parsed (state r) Hl) as [[res ->]| ->].
  - left. exists res. simpl. rewrite Hres. simpl. rewrite Hret. auto.
  - right. simpl. split; [repeat split; assumption|reflexivity].
Qed.

Lemma complete_last_from (trace : list occurrence) (code : option Z) (now : Z) :
  result_read_last trace = true ->
  forall r, open_run r ->
    exists more res,
      events (exec r (trace ++ [child_close code now])) =
        (events r ++ more ++ [complete res])%list /\
      List.filter is_complete more = [] /\
      returned (exec r (trace ++ [child_close code now])) = fulfilled res.
Proof.
  induction trace as [|o trace IH]; intros H r Hopen.
  - destruct (close_open_run r code now Hopen) as (res & He & Hr).
    exists [], res. simpl. auto.
  - simpl in H. apply andb_prop in H as [Hend H].
    rewrite <- app_comm_cons, exec_cons.
    assert (Hquiet : forall o', quiet o' = true -> result_read_last trace = true ->
              exists more res,
                events (exec (deliver r o') (trace ++ [child_close code now])) =
                  (events r ++ more ++ [complete res])%list /\
                List.filter is_complete more = [] /\
                returned (exec (deliver r o') (trace ++ [child_close code now])) =
                  fulfilled res).
    { intros o' Hq Ht. pose proof (quiet_deliver r o' Hq) as E.
      unfold shape in E. injection E as E1 E2 E3 E4 E5.
      destruct Hopen as (Hc & Hrl & Hres & Hret).
      destruct (IH Ht (deliver r o')) as (more & res & He & Hm & Hr).
      { repeat split; congruence. }
      exists more, res. rewrite He, E1. auto. }
    destruct o as [l|t|t| |c t|m t]; try discriminate;
      try (apply Hquiet; [reflexivity|exact H]).
    destruct (is_result_line l) eqn:Hl.
    + destruct (result_line_deliver r l Hopen Hl)
        as [(res & He & Hr & Hres)|[Hopen' He]].
      * set (r1 := deliver r (line_read l)) in *. clearbody r1.
        pose proof (quiet_exec trace H r1) as E.
        unfold shape in E. injection E as E1 E2 E3 E4 E5.
        rewrite exec_app.
        destruct (close_resolved_run (exec r1 trace) code now)
          as [He' Hr']; [congruence|].
        change (exec (exec r1 trace) [child_close code now])
          with (deliver (exec r1 trace) (child_close code now)).
        rewrite He', Hr', E1, E3, He, Hr.
        exists [], res. simpl. auto.
      * destruct (IH (quiet_result_read_last trace H) _ Hopen')
          as (more & res & He' & Hm & Hr).
        exists more, res. rewrite He', He. auto.
    + destruct (line_open_run r l Hopen Hl) as [Hopen' (evs & He & Hevs)].
      destruct (IH H _ Hopen') as (more & res & He' & Hm & Hr).
      exists (evs ++ more)%list, res. rewrite He', He, <- !app_assoc.
      rewrite List.filter_app, Hevs, Hm. auto.
Qed.

(** C2, as the code has it.  In a run that ends with the close of the
    process, without an error event, and in which no line is read after a
    result record, exactly one [complete] event is emitted, it is the last
    event, and its result is the one the promise is fulfilled with. *)
Theorem complete_once_and_last
    (timeoutMs start now0 : Z) (child_pid : option Z)
    (trace : list occurrence) (code : option Z) (now : Z) :
  result_read_last trace = true ->
  let r := exec (runClaudeStream timeoutMs start (spawn_returns child_pid) now0)
                (trace ++ [child_close code now]) in
  exists before res,
    events r = (before ++ [complete res])%list /\
    List.filter is_complete before = [] /\
    returned r = fulfilled res.
Proof.
  intros H r.
  destruct (complete_last_from trace code now H
              (runClaudeStream timeoutMs start (spawn_returns child_pid) now0))
    as (more & res & He & Hm & Hr).
  { repeat split. }
  exists more, res. auto.
Qed.

Lemma complete_once_and_last_witness :
  exists before res,
    events (exec (runClaudeStream 5000 0 (spawn_returns (Some 4242%Z)) 0)
              [line_read (Parseable (Sample.text_delta_record "Hi"));
               line_read (Parseable (Sample.result_record "" false));
               child_exit; child_close (Some 0%Z) 1300])
      = (before ++ [complete res])%list /\
    List.filter is_complete before = [] /\
    returned (exec (runClaudeStream 5000 0 (spawn_returns (Some 4242%Z)) 0)
                [line_read (Parseable (Sample.text_delta_record "Hi"));
                 line_read (Parseable (Sample.result_record "" false));
                 child_exit; child_close (Some 0%Z) 1300])
      = fulfilled res.
Proof.
  apply (complete_once_and_last 5000 0 0 (Some 4242%Z)
           [line_read (Parseable (Sample.text_delta_record "Hi"));
            line_read (Parseable (Sample.result_record "" false));
            child_exit] (Some 0%Z) 1300).
  reflexivity.
Defined.

(** A record read after the result record still emits its events, and a
    second result record emits a second [complete]: the events of this run
    are not some events without [complete] followed by one [complete]. *)
Lemma events_after_complete :
  let r := exec (runClaudeStream 5000 0 (spawn_returns (Some 4242%Z)) 0)
             [line_read (Parseable (Sample.result_record "done" false));
              line_read (Parseable (Sample.text_delta_record "more"));
              line_read (Parseable (Sample.result_record "again" false));
              child_close (Some 0%Z) 1300] in
  List.map is_complete (events r) = [true; false; true] /\
  ~ (exists before res,
       events r = (before ++ [complete res])%list /\
       List.filter is_complete before = []).
Proof.
  split; [reflexivity|].
  intros (before & res & He & Hb).
  apply (f_equal (List.map is_complete)) in He.
  rewrite List.map_app in He. cbn in He.
  destruct before as [|e1 [|e2 [|e3 before]]]; try discriminate.
  - simpl in He. injection He as E1 E2.
    simpl in Hb. rewrite <- E1 in Hb. discriminate.
  - destruct before; discriminate.
Qed.


(** A process that ignores SIGTERM: with a timeout of 5000 ms the forceful
    kill goes out when the kill timer fires at 10000 ms, and the result of
    the run says that it timed out. *)
Example forceful_kill_scenario :
  let r := exec (runClaudeStream 5000 0 (spawn_returns (Some 4242%Z)) 0)
             [line_read (Parseable (Sample.text_delta_record "Hi"));
              timer_fired 5000; killTimer_fired 10000;
              child_exit; child_close None 10050] in
  kills r = [kill_child SIGTERM; kill_group 4242 SIGKILL] /\
  returned r =
    fulfilled {| success := false; output := VStr "Hi"; timedOut := true;
                 exitCode := None; durationMs := VNum "10050";
                 costUsd := VUndefined; numTurns := VUndefined |}.
Proof. split; reflexivity. Qed.


(** ** The supervisor: failures *)











(** ** The stream updater *)

Module UpdaterFacts.
Import Updater.






End UpdaterFacts.

(** ** The duplicate-event cache *)

Module DedupeFacts.
Import Dedupe.

Lemma isDuplicate_present (key : string) (now : Z) (c : cache) :
  is_Some (processed c !! key) -> isDuplicate key now c = (true, c).
Proof. intros [ts H]. unfold isDuplicate. rewrite H. reflexivity. Qed.

Lemma sweep_keeps (cutoff : Z) (m : gmap string Z) (k : string) (ts : Z) :
  m !! k = Some ts -> (cutoff <= ts)%Z -> sweep cutoff m !! k = Some ts.
Proof.
  intros H Hle. unfold sweep. apply map_lookup_filter_Some.
  split; [exact H|]. simpl. lia.
Qed.

Lemma isDuplicate_absent (key : string) (now : Z) (c : cache) :
  processed c !! key = None ->
  (isDuplicate key now c).1 = false /\
  processed (isDuplicate key now c).2 !! key = Some now /\
  timers (isDuplicate key now c).2 = (timers c ++ [(key, now + WINDOW_MS)%Z])%list.
Proof.
  intros H. unfold isDuplicate. rewrite H. simpl.
  split; [reflexivity|]. split; [|reflexivity].
  destruct (MAX_CACHE_SIZE <? _)%Z.
  - apply sweep_keeps; [apply lookup_insert_eq|]. unfold WINDOW_MS. lia.
  - apply lookup_insert_eq.
Qed.

Lemma remove_timer_Some (key : string) (now : Z) (ts rest : list (string * Z)) :
  remove_timer key now ts = Some rest ->
  (exists due, In (key, due) ts /\ (due <= now)%Z) /\
  (forall x, In x rest -> In x ts).
Proof.
  revert rest. induction ts as [|[k due] ts IH]; intros rest H; [discriminate|].
  simpl in H.
  destruct (String.eqb k key && (due <=? now)%Z) eqn:E.
  - injection H as <-. apply andb_prop in E as [Ek Ed].
    apply String.eqb_eq in Ek. apply Z.leb_le in Ed. subst k.
    split; [exists due; split; [left; reflexivity|exact Ed]|].
    intros x Hx. right. exact Hx.
  - destruct (remove_timer key now ts) as [rest'|]; [|discriminate].
    injection H as <-. destruct (IH rest' eq_refl) as [(d & Hin & Hd) Hsub].
    split; [exists d; split; [right; exact Hin|exact Hd]|].
    intros x [Hx|Hx]; [left; exact Hx|right; apply Hsub, Hx].
Qed.

Lemma held_deliver (key : string) (t0 : Z) (c : cache) (o : occurrence) :
  held key t0 c -> (time_of o < t0 + WINDOW_MS)%Z ->
  held key t0 (deliver c o).1 /\
  (forall now, o = request key now ->
               deliver c o = (c, Some false)).
Proof.
  intros [Hk Ht] Hnow. destruct o as [k now|k now]; simpl in *.
  - unfold accept. destruct (String.eqb_spec k key) as [->|Hne].
    + rewrite isDuplicate_present by (rewrite Hk; eauto). simpl.
      split; [split; assumption|]. intros now' _. reflexivity.
    + split; [|intros now' H; congruence].
      unfold isDuplicate. destruct (processed c !! k) eqn:E; simpl.
      { split; assumption. }
      split.
      * assert (Hins : <[k:=now]> (processed c) !! key = Some t0)
          by (rewrite lookup_insert_ne; [exact Hk|exact Hne]).
        destruct (MAX_CACHE_SIZE <? _)%Z; [|exact Hins].
        apply sweep_keeps; [exact Hins|lia].
      * intros due Hin. apply in_app_or in Hin as [Hin|[Hin|[]]].
        -- apply Ht, Hin.
        -- congruence.
  - split; [|intros now' H; discriminate].
    destruct (remove_timer k now (timers c)) as [rest|] eqn:E; simpl.
    + destruct (remove_timer_Some _ _ _ _ E) as [(due & Hin & Hd) Hsub].
      destruct (String.eqb_spec k key) as [->|Hne].
      * apply Ht in Hin. lia.
      * unfold on_timer, held. simpl. split.
        -- rewrite lookup_delete_ne; [exact Hk|exact Hne].
        -- intros d Hd'. apply Ht, Hsub, Hd'.
    + split; assumption.
Qed.




End DedupeFacts.

(** ** Prompt validation *)

Module PromptFacts.
Import Prompt.

Lemma exec_from_eq (s : string) (i : nat) :
  exec_from s i =
    match alternation FORBIDDEN_ALTERNATIVES s with
    | Some n => Some (i + n)
    | None =>
        match s with
        | EmptyString => None
        | String _ s' => exec_from s' (S i)
        end
    end.
Proof. destruct s; reflexivity. Qed.

Lemma exec_from_finds (before rest : string) (i : nat) :
  alternation FORBIDDEN_ALTERNATIVES rest <> None ->
  exec_from (before ++ rest) i <> None.
Proof.
  revert i. induction before as [|c before IH]; intros i H;
    rewrite exec_from_eq.
  - change ("" ++ rest) with rest.
    destruct (alternation FORBIDDEN_ALTERNATIVES rest); congruence.
  - destruct (alternation FORBIDDEN_ALTERNATIVES (String c before ++ rest));
      [discriminate|]. apply IH, H.
Qed.

Lemma skip_app (n : nat) (before rest : string) :
  n <= String.length before ->
  exists before', skip n (before ++ rest) = before' ++ rest.
Proof.
  revert before. induction n as [|n IH]; intros before H.
  - exists before. reflexivity.
  - destruct before as [|c before]; simpl in H; [lia|].
    destruct (IH before ltac:(lia)) as [b' Hb]. exists b'. exact Hb.
Qed.

Lemma length_app (a b : string) :
  String.length (a ++ b) = String.length a + String.length b.
Proof. induction a as [|c a IH]; simpl; [reflexivity|]. rewrite IH. reflexivity. Qed.

(** A forbidden pattern that starts at or after [lastIndex] is found: the
    prompt is rejected with the reason for forbidden patterns.  With
    [lastIndex = 0], as after a call that found nothing, that is every
    prompt that contains a forbidden pattern. *)
Lemma validatePrompt_rejects (before rest : string) (lastIndex : nat) :
  alternation FORBIDDEN_ALTERNATIVES rest <> None ->
  lastIndex <= String.length before ->
  (validatePrompt (before ++ rest) lastIndex).1 = Some FORBIDDEN_REASON.
Proof.
  intros Hmatch Hle. unfold validatePrompt, test.
  destruct (Nat.ltb_spec (String.length (before ++ rest)) lastIndex) as [Hlt|_].
  { rewrite length_app in Hlt. lia. }
  destruct (skip_app lastIndex before rest Hle) as [before' ->].
  pose proof (exec_from_finds before' rest lastIndex Hmatch) as Hfound.
  destruct (exec_from (before' ++ rest) lastIndex); [reflexivity|congruence].
Qed.

Lemma validatePrompt_rejects_witness :
  (validatePrompt "please run --Unsafe now" 0).1 = Some FORBIDDEN_REASON.
Proof.
  apply (validatePrompt_rejects "please run " "--Unsafe now" 0).
  - discriminate.
  - apply Nat.le_0_l.
Defined.

(** C1.  The forbidden-pattern test keeps its position between calls: the
    first validation of ["--unsafe"] gives the reason and leaves
    [lastIndex] at 8, and the next validation of the same prompt searches
    from there, finds nothing and returns [null]; the handler then goes on
    to spawn the process with the forbidden prompt. *)
Theorem validatePrompt_forgets_forbidden_prompt :
  validatePrompt "--unsafe" 0 = (Some FORBIDDEN_REASON, 8) /\
  validatePrompt "--unsafe" 8 = (None, 0) /\
  gates ["--unsafe"; "--unsafe"] 0 =
    [Rejected ("⚠️ " ++ FORBIDDEN_REASON); Spawns "--unsafe"].
Proof. repeat split. Qed.

End PromptFacts.

(** ** More on the parser *)

Module ParserFacts.
Import Shapes.

Lemma append_nil_r (a : string) : a ++ "" = a.
Proof.
  induction a as [|c a IH]; [reflexivity|]. exact (f_equal (String c) IH).
Qed.

Lemma append_assoc (a b c : string) : (a ++ b) ++ c = a ++ (b ++ c).
Proof.
  induction a as [|x a IH]; [reflexivity|]. exact (f_equal (String x) IH).
Qed.

Lemma text_delta_spec (parsed : value) (t : string) (s : Parser.state) :
  text_delta_of parsed t ->
  parseStreamLine (Parseable parsed) s =
    (set_isThinking false (set_accumulatedText (accumulatedText s ++ t) s),
     [text_delta (VStr t) (accumulatedText s ++ t)], false).
Proof.
  intros (Htype & Hevent & Hkind & Htext). unfold path in *. simpl in *.
  destruct (get_VStr_object _ _ _ Htype) as [Hn1 _].
  destruct (get_VStr_object _ _ _ Hevent) as [Hn2 Ht2].
  destruct (get_VStr_object _ _ _ Hkind) as [Hn3 Ht3].
  parser_unfold.
  rewrite ?Hn1, ?Htype; simpl.
  rewrite ?Ht2, ?Hn2, ?Hevent; simpl.
  rewrite ?Ht3, ?Hn3, ?Hkind, ?Htext; simpl.
  destruct (String.length (accumulatedText s) =? 0)%nat; reflexivity.
Qed.


(** Text fragments add up: for a stream of text deltas, each event carries
    its fragment and the text so far, the state ends with all fragments
    appended in order, and the active tool is not touched. *)
Theorem text_accumulates (records : list value) (ts : list string)
    (s : Parser.state) :
  Forall2 text_delta_of records ts ->
  (parseStream (map Parseable records) s).2
    = running_deltas (accumulatedText s) ts /\
  accumulatedText (parseStream (map Parseable records) s).1
    = accumulatedText s ++ concat_text ts /\
  currentToolName (parseStream (map Parseable records) s).1
    = currentToolName s.
Proof.
  intros H. revert s. induction H as [|parsed t records ts Hp _ IH]; intros s.
  - simpl. rewrite append_nil_r. repeat split.
  - cbn [map parseStream]. rewrite (text_delta_spec parsed t s Hp).
    specialize (IH (set_isThinking false
                      (set_accumulatedText (accumulatedText s ++ t) s))).
    destruct (parseStream (map Parseable records) _) as [s2 e2].
    simpl in *. destruct IH as (He & Ha & Hc). subst e2.
    split; [reflexivity|]. split; [|exact Hc].
    rewrite Ha. simpl. apply append_assoc.
Qed.

Lemma text_accumulates_witness :
  (parseStream
     (map Parseable [Sample.text_delta_record "Hel"; Sample.text_delta_record "lo"])
     Sample.fresh).2
  = [text_delta (VStr "Hel") "Hel"; text_delta (VStr "lo") "Hello"].
Proof.
  apply (text_accumulates
           [Sample.text_delta_record "Hel"; Sample.text_delta_record "lo"]
           ["Hel"; "lo"] Sample.fresh).
  repeat constructor.
Defined.



(** A run of thinking blocks is announced once: consecutive content-start
    records of sub-kind thinking emit one [thinking] event when the flag
    was unset and none when it was set, and leave the flag set. *)
Theorem thinking_latches (first : value) (more : list value)
    (s : Parser.state) :
  Forall (fun parsed => content_start parsed "thinking") (first :: more) ->
  (parseStream (map Parseable (first :: more)) s).2
    = (if isThinking s then [] else [thinking]) /\
  (parseStream (map Parseable (first :: more)) s).1 = set_isThinking true s.
Proof.
  intros H.
  assert (Hset : forall records s1,
            Forall (fun parsed => content_start parsed "thinking") records ->
            isThinking s1 = true ->
            parseStream (map Parseable records) s1 = (s1, [])).
  { induction records as [|p records IH]; intros s1 Hr Hflag; [reflexivity|].
    inversion Hr as [|? ? Hp Hrest]; subst.
    cbn [map parseStream]. rewrite (thinking_start_spec p s1 Hp), Hflag.
    rewrite (IH s1 Hrest Hflag). reflexivity. }
  inversion H as [|? ? Hp Hrest]; subst.
  cbn [map parseStream]. rewrite (thinking_start_spec first s Hp).
  destruct (isThinking s) eqn:Hflag.
  - rewrite (Hset more s Hrest Hflag). simpl. split; [reflexivity|].
    destruct s; simpl in *; subst; reflexivity.
  - rewrite (Hset more (set_isThinking true s) Hrest eq_refl). simpl.
    split; reflexivity.
Qed.

Lemma thinking_latches_witness :
  (parseStream
     (map Parseable [Sample.thinking_start; Sample.thinking_start;
                     Sample.thinking_start])
     Sample.fresh).2 = [thinking].
Proof.
  apply (thinking_latches Sample.thinking_start
           [Sample.thinking_start; Sample.thinking_start] Sample.fresh).
  repeat constructor.
Defined.




End ParserFacts.

(** ** More on the supervisor *)

Module RunnerFacts.
Import Shapes RunShapes.

Lemma first_complete_app (a b : list ClaudeStreamEvent) :
  first_complete (a ++ b) =
    match first_complete a with
    | Some res => Some res
    | None => first_complete b
    end.
Proof.
  induction a as [|e a IH]; [reflexivity|].
  destruct e; simpl; try exact IH. reflexivity.
Qed.

Lemma first_wins_emit_settle (r : run) (res : ClaudeResult) :
  first_wins r -> first_wins (settle res (emit (complete res) r)).
Proof.
  intros [Hret Hflag]. split; simpl.
  - rewrite first_complete_app, Hret.
    destruct (first_complete (events r)); reflexivity.
  - intros H. rewrite first_complete_app.
    destruct (first_complete (events r)); discriminate.
Qed.

Lemma first_wins_forward (r : run) (e : ClaudeStreamEvent) :
  first_wins r -> first_wins (forward r e).
Proof.
  intros Inv. unfold forward.
  destruct e as [| | | |res].
  1-4: destruct Inv as [Hret Hflag]; split; simpl;
       rewrite first_complete_app;
       [rewrite Hret|intros H; specialize (Hflag H)];
       destruct (first_complete (events r)); simpl; congruence.
  simpl. destruct (resultResolved r) eqn:Hres; simpl.
  - destruct Inv as [Hret Hflag]. specialize (Hflag Hres). split; simpl.
    + rewrite first_complete_app, Hret.
      destruct (first_complete (events r)); congruence.
    + intros _. rewrite first_complete_app.
      destruct (first_complete (events r)); congruence.
  - destruct (first_wins_emit_settle r res Inv) as [Hret Hflag].
    split; simpl; [exact Hret|]. intros _. rewrite first_complete_app.
    destruct (first_complete (events r)); discriminate.
Qed.

Lemma first_wins_fold (evs : list ClaudeStreamEvent) :
  forall r, first_wins r -> first_wins (fold_left forward evs r).
Proof.
  induction evs as [|e evs IH]; intros r Inv; [exact Inv|].
  simpl. apply IH, first_wins_forward, Inv.
Qed.

Lemma first_wins_deliver (r : run) (o : occurrence) :
  first_wins r -> first_wins (deliver r o).
Proof.
  intros Inv. destruct o as [l|now|now| |code now|message now]; simpl.
  - destruct (rl r); [|exact Inv]. unfold on_line.
    destruct (blank l); [exact Inv|].
    destruct (parseStreamLine l (Runner.state r)) as [[s evs] raised].
    assert (H : first_wins (fold_left forward evs (set_state s r))).
    { apply first_wins_fold. exact Inv. }
    destruct raised; exact H.
  - destruct (timer r); [|exact Inv]. destruct (_ <=? _)%Z; [|exact Inv].
    unfold on_timer. simpl. destruct (negb (killAttempted r)); exact Inv.
  - destruct (killTimer r); [|exact Inv]. destruct (_ <=? _)%Z; [|exact Inv].
    unfold on_killTimer, set_killTimer. simpl.
    destruct (pid r) as [q|]; [destruct (q =? 0)%Z|]; exact Inv.
  - destruct (exit_clears_killTimer r); exact Inv.
  - destruct (child r); [|exact Inv]. unfold on_close.
    set (r1 := set_rl false (set_heartbeat false (set_timer None r))).
    assert (Inv1 : first_wins r1) by exact Inv.
    change (resultResolved (set_rl false (set_heartbeat false (set_timer None r))))
      with (resultResolved r1).
    destruct (resultResolved r1); simpl; [exact Inv1|].
    apply (first_wins_emit_settle r1 _ Inv1).
  - destruct (child r); [|exact Inv]. unfold on_error.
    set (r1 := set_heartbeat false (set_timer None r)).
    assert (Inv1 : first_wins r1) by exact Inv.
    change (resultResolved (set_heartbeat false (set_timer None r)))
      with (resultResolved r1).
    destruct (resultResolved r1); simpl; [exact Inv1|].
    apply (first_wins_emit_settle r1 _ Inv1).
Qed.

(** The promise is fulfilled with the result of the first [complete] event
    and with nothing else: in every run, whatever [spawn] did and whatever
    occurred since, the promise is pending while no [complete] event was
    emitted and holds the first one's result from then on. *)
Theorem promise_holds_first_complete
    (timeoutMs start now0 : Z) (spawned : spawn_outcome)
    (trace : list occurrence) :
  returned (exec (runClaudeStream timeoutMs start spawned now0) trace) =
    match first_complete
            (events (exec (runClaudeStream timeoutMs start spawned now0) trace))
    with
    | Some res => fulfilled res
    | None => pending
    end.
Proof.
  assert (H : forall r, first_wins r -> first_wins (exec r trace)).
  { induction trace as [|o trace IH]; intros r Inv; [exact Inv|].
    rewrite exec_cons. apply IH, first_wins_deliver, Inv. }
  apply H. destruct spawned; split; simpl; try reflexivity; discriminate.
Qed.




(** A process that closes, or fails with an error event, before any signal
    was sent is never signalled: the timeout timer is cleared, and nothing
    that occurs afterwards sends SIGTERM or SIGKILL. *)
Theorem closed_early_never_signalled
    (timeoutMs start now0 : Z) (child_pid : option Z)
    (trace rest : list occurrence) (ending : occurrence) :
  ends_run ending = true ->
  kills (exec (runClaudeStream timeoutMs start (spawn_returns child_pid) now0)
           trace) = [] ->
  kills (exec (runClaudeStream timeoutMs start (spawn_returns child_pid) now0)
           (trace ++ ending :: rest)) = [].
Proof.
  intros Hend Hkills. rewrite exec_app, exec_cons.
  set (r := exec _ trace) in *.
  assert (Inv : escalation (now0 + timeoutMs) r)
    by apply escalation_exec, escalation_start.
  destruct Inv as [Hchild Hflag Htimer Hidle Hterm].
  assert (Hk : killed r = false).
  { destruct (killed r); [|reflexivity].
    destruct (Hterm eq_refl) as (_ & _ & x & Hx & _). congruence. }
  destruct (Hidle Hk) as (_ & Hkt & _).
  destruct ending as [l|now|now| |code now|message now]; try discriminate;
    simpl; rewrite Hchild.
  - unfold on_close. simpl.
    destruct (resultResolved r); rewrite no_timer_no_signal; auto.
  - unfold on_error. simpl.
    destruct (resultResolved r); rewrite no_timer_no_signal; auto.
Qed.

Lemma closed_early_never_signalled_witness :
  kills (exec (runClaudeStream 5000 0 (spawn_returns (Some 4242%Z)) 0)
           ([line_read (Parseable (Sample.text_delta_record "Hi"))] ++
            child_close (Some 0%Z) 1200 ::
            [timer_fired 5000; killTimer_fired 10000])) = [].
Proof.
  apply (closed_early_never_signalled 5000 0 0 (Some 4242%Z)
           [line_read (Parseable (Sample.text_delta_record "Hi"))]
           [timer_fired 5000; killTimer_fired 10000]
           (child_close (Some 0%Z) 1200)); reflexivity.
Defined.

End RunnerFacts.

(** ** More on the stream updater *)

Module MoreUpdaterFacts.
Import Updater MoreShapes.

Lemma timer_step (u : updater) (o : occurrence) :
  only_timer o = true ->
  (updates (deliver u o) = updates u /\ dirty (deliver u o) = dirty u) \/
  (dirty u = true /\ dirty (deliver u o) = false /\
   updates (deliver u o) = (updates u ++ [buildMessage u])%list).
Proof.
  destruct o as [|ok|event|]; try discriminate; intros _; simpl.
  - destruct (intervalTimer u); [|auto]. unfold on_interval.
    destruct (stopped u); simpl; [auto|].
    destruct (dirty u) eqn:Hd; simpl; [|rewrite Hd; auto].
    destruct (flushing u); simpl; [rewrite Hd; auto|]. right. auto.
  - destruct (in_flight u); auto.
Qed.

(** One change, one update.  Over any number of ticks and settled updates
    with no event in between, the updater sends at most one update, and
    none at all when [dirty] is unset: an update that failed is not sent
    again until an event changes the state. *)
Theorem one_update_per_change (u : updater) (trace : list occurrence) :
  forallb only_timer trace = true ->
  (dirty u = false -> updates (exec u trace) = updates u) /\
  length (updates (exec u trace)) <= S (length (updates u)).
Proof.
  intros H.
  assert (Hclean : forall tr, forallb only_timer tr = true ->
            forall v, dirty v = false -> updates (exec v tr) = updates v).
  { induction tr as [|o tr IH]; intros Htr v Hd; [reflexivity|].
    simpl in Htr. apply andb_prop in Htr as [Ho Htr].
    change (exec v (o :: tr)) with (exec (deliver v o) tr).
    destruct (timer_step v o Ho) as [[Hu Hd']|(Hd' & _)]; [|congruence].
    rewrite (IH Htr); [exact Hu|congruence]. }
  split; [apply Hclean, H|].
  revert u H. induction trace as [|o trace IH]; intros u H; [simpl; lia|].
  simpl in H. apply andb_prop in H as [Ho Htr].
  change (exec u (o :: trace)) with (exec (deliver u o) trace).
  destruct (timer_step u o Ho) as [[Hu Hd]|(Hd & Hd' & Hu)].
  - specialize (IH (deliver u o) Htr). rewrite Hu in IH. exact IH.
  - rewrite (Hclean trace Htr _ Hd'), Hu, length_app. simpl. lia.
Qed.

Lemma one_update_per_change_witness :
  length (updates (exec createStreamUpdater
                     [interval_fired; update_settled false; interval_fired;
                      interval_fired; update_settled true; interval_fired]))
  <= 1.
Proof.
  apply (one_update_per_change createStreamUpdater
           [interval_fired; update_settled false; interval_fired;
            interval_fired; update_settled true; interval_fired]).
  reflexivity.
Defined.

(** What [dirty] means: whenever the flag is unset, the last update sent is
    the message of the current state, after any sequence of ticks, settled
    updates, events and cleanups. *)
Theorem clean_means_sent (trace : list occurrence) :
  dirty (exec createStreamUpdater trace) = false ->
  last (updates (exec createStreamUpdater trace))
    = Some (buildMessage (exec createStreamUpdater trace)).
Proof.
  assert (H : forall tr u,
            (dirty u = false -> last (updates u) = Some (buildMessage u)) ->
            dirty (exec u tr) = false ->
            last (updates (exec u tr)) = Some (buildMessage (exec u tr))).
  { induction tr as [|o tr IH]; intros u Inv; [exact Inv|].
    change (exec u (o :: tr)) with (exec (deliver u o) tr). apply IH.
    destruct o as [|ok|event|]; simpl.
    - destruct (intervalTimer u); [|exact Inv]. unfold on_interval.
      destruct (stopped u); simpl; [exact Inv|].
      destruct (dirty u) eqn:Hd; simpl; [|rewrite Hd; exact Inv].
      destruct (flushing u); simpl; [rewrite Hd; exact Inv|].
      intros _. rewrite last_snoc. reflexivity.
    - destruct (in_flight u); exact Inv.
    - unfold onEvent. destruct (stopped u); [exact Inv|].
      destruct event; simpl; try discriminate. exact Inv.
    - exact Inv. }
  apply H. discriminate.
Qed.

Lemma clean_means_sent_witness :
  last (updates (exec createStreamUpdater
                   [event_received (Parser.text_delta (Json.VStr "Hi") "Hi");
                    interval_fired]))
  = Some (buildMessage
            (exec createStreamUpdater
               [event_received (Parser.text_delta (Json.VStr "Hi") "Hi");
                interval_fired])).
Proof.
  apply (clean_means_sent
           [event_received (Parser.text_delta (Json.VStr "Hi") "Hi");
            interval_fired]).
  reflexivity.
Defined.

End MoreUpdaterFacts.

(** ** More on the duplicate-event cache *)

Module MoreDedupeFacts.
Import Dedupe MoreShapes DedupeFacts.

(** The sweep and the ceiling.  A new key is inserted with the time of the
    call.  While the cache holds no more than [MAX_CACHE_SIZE] entries
    nothing else changes; above the ceiling exactly the entries older than
    the window are removed, the new key among those that stay. *)
Theorem sweep_keeps_the_window (key : string) (now : Z) (c : cache) :
  processed c !! key = None ->
  ((Z.of_nat (size (<[key:=now]> (processed c))) <= MAX_CACHE_SIZE)%Z ->
   processed (isDuplicate key now c).2 = <[key:=now]> (processed c)) /\
  ((MAX_CACHE_SIZE < Z.of_nat (size (<[key:=now]> (processed c))))%Z ->
   forall k ts,
     processed (isDuplicate key now c).2 !! k = Some ts <->
     <[key:=now]> (processed c) !! k = Some ts /\ (now - WINDOW_MS <= ts)%Z) /\
  processed (isDuplicate key now c).2 !! key = Some now.
Proof.
  intros Habsent. unfold isDuplicate. rewrite Habsent. simpl.
  destruct (Z.ltb_spec MAX_CACHE_SIZE
              (Z.of_nat (size (<[key:=now]> (processed c))))) as [Hbig|Hsmall].
  - split; [lia|]. split.
    + intros _ k ts. unfold sweep. rewrite map_lookup_filter_Some. simpl.
      split; intros [H1 H2]; (split; [exact H1|lia]).
    + apply sweep_keeps; [apply lookup_insert_eq|]. unfold WINDOW_MS. lia.
  - split; [reflexivity|]. split; [lia|]. apply lookup_insert_eq.
Qed.

Lemma sweep_keeps_the_window_witness :
  processed (isDuplicate "C01-1700000000.000100" 1000 empty).2
    !! "C01-1700000000.000100" = Some 1000%Z.
Proof.
  apply (sweep_keeps_the_window "C01-1700000000.000100" 1000 empty).
  reflexivity.
Defined.

Lemma remove_timer_other (key : string) (now : Z) (ts rest : list (string * Z)) :
  remove_timer key now ts = Some rest ->
  forall k due, k <> key -> In (k, due) ts -> In (k, due) rest.
Proof.
  revert rest. induction ts as [|[k0 d0] ts IH]; intros rest H k due Hne Hin;
    [discriminate|].
  simpl in H. destruct (String.eqb k0 key && (d0 <=? now)%Z) eqn:E.
  - injection H as <-. apply andb_prop in E as [Ek _].
    apply String.eqb_eq in Ek. subst k0.
    destruct Hin as [Hin|Hin]; [congruence|exact Hin].
  - destruct (remove_timer key now ts) as [rest'|]; [|discriminate].
    injection H as <-. destruct Hin as [Hin|Hin]; [left; exact Hin|].
    right. apply (IH rest' eq_refl k due Hne Hin).
Qed.

Lemma remove_timer_finds (key : string) (now due : Z) (ts : list (string * Z)) :
  In (key, due) ts -> (due <= now)%Z ->
  exists rest, remove_timer key now ts = Some rest.
Proof.
  induction ts as [|[k0 d0] ts IH]; intros Hin Hle; [destruct Hin|].
  simpl. destruct (String.eqb k0 key && (d0 <=? now)%Z) eqn:E; [eauto|].
  destruct Hin as [Hin|Hin].
  - injection Hin as -> ->. rewrite String.eqb_refl in E.
    apply Z.leb_le in Hle. rewrite Hle in E. discriminate.
  - destruct (IH Hin Hle) as [rest ->]. simpl. eauto.
Qed.

Lemma awaiting_deliver (key : string) (t0 : Z) (c : cache) (o : occurrence) :
  awaiting key t0 c -> (time_of o < t0 + WINDOW_MS)%Z ->
  awaiting key t0 (deliver c o).1.
Proof.
  intros [Hheld Hin] Hnow.
  split; [apply (held_deliver key t0 c o Hheld Hnow)|].
  destruct o as [k now|k now]; simpl in *.
  - unfold accept, isDuplicate. destruct (processed c !! k); simpl; [exact Hin|].
    apply in_or_app. left. exact Hin.
  - destruct (remove_timer k now (timers c)) as [rest|] eqn:E; simpl;
      [|exact Hin].
    destruct (String.eqb_spec k key) as [->|Hne].
    + destruct (remove_timer_Some _ _ _ _ E) as [(due & Hd & Hle) _].
      destruct Hheld as [_ Hdue]. apply Hdue in Hd. lia.
    + apply (remove_timer_other _ _ _ _ E); [congruence|exact Hin].
Qed.

Lemma awaiting_exec (key : string) (t0 : Z) (trace : list occurrence) :
  Forall (fun o => (time_of o < t0 + WINDOW_MS)%Z) trace ->
  forall c, awaiting key t0 c -> awaiting key t0 (exec c key trace).1.
Proof.
  induction 1 as [|o trace Ho _ IH]; intros c Hc; [exact Hc|].
  pose proof (awaiting_deliver key t0 c o Hc Ho) as Hc'.
  simpl. destruct (deliver c o) as [c' answer]. simpl in Hc'.
  specialize (IH c' Hc'). destruct (exec c' key trace) as [c'' answers].
  simpl in *. destruct o as [k now|k now]; [|destruct answer; exact IH].
  destruct answer; [destruct (String.eqb k key)|]; exact IH.
Qed.

(** The window ends with the key's timer.  For a key admitted at [t0],
    whatever requests and removals occur before the window has passed, the
    removal that fires once the window is over takes the key out of the
    cache, and the next request for it is admitted again. *)
Theorem key_admitted_again_after_window
    (key : string) (t0 now : Z) (c : cache) (trace : list occurrence) :
  processed c !! key = None ->
  (forall due, ~ In (key, due) (timers c)) ->
  Forall (fun o => (time_of o < t0 + WINDOW_MS)%Z) trace ->
  (t0 + WINDOW_MS <= now)%Z ->
  processed
    (deliver (exec (accept key t0 c).2 key trace).1 (timer_fired key now)).1
    !! key = None /\
  (accept key now
     (deliver (exec (accept key t0 c).2 key trace).1 (timer_fired key now)).1).1
  = true.
Proof.
  intros Habsent Hfresh Hwindow Hnow.
  destruct (isDuplicate_absent key t0 c Habsent) as (Hdup & Hin & Htimers).
  assert (Hacc : (accept key t0 c).2 = (isDuplicate key t0 c).2)
    by (unfold accept; destruct (isDuplicate key t0 c); reflexivity).
  rewrite !Hacc. clear Hacc.
  destruct (isDuplicate key t0 c) as [dup c1] eqn:E. simpl in *.
  assert (Hc1 : awaiting key t0 c1).
  { split; [split; [exact Hin|]|].
    - intros due Hd. rewrite Htimers in Hd.
      apply in_app_or in Hd as [Hd|[Hd|[]]]; [destruct (Hfresh due Hd)|].
      congruence.
    - rewrite Htimers. apply in_or_app. right. left. reflexivity. }
  pose proof (awaiting_exec key t0 trace Hwindow c1 Hc1) as [_ Hpending].
  set (c2 := (exec c1 key trace).1) in *.
  destruct (remove_timer_finds key now _ _ Hpending Hnow) as [rest Hrest].
  rewrite Hrest. simpl.
  assert (Hgone : delete key (processed c2) !! key = None)
    by apply lookup_delete_eq.
  split; [exact Hgone|].
  unfold accept, isDuplicate. simpl. rewrite Hgone. reflexivity.
Qed.

Lemma key_admitted_again_after_window_witness :
  (accept "C01-1700000000.000100" 301000
     (deliver
        (exec (accept "C01-1700000000.000100" 1000 empty).2
           "C01-1700000000.000100"
           [request "C01-1700000000.000100" 1500;
            request "C02-1700000000.000200" 2000]).1
        (timer_fired "C01-1700000000.000100" 301000)).1).1
  = true.
Proof.
  apply (key_admitted_again_after_window "C01-1700000000.000100" 1000 301000
           empty
           [request "C01-1700000000.000100" 1500;
            request "C02-1700000000.000200" 2000]).
  - reflexivity.
  - intros due [].
  - repeat constructor.
  - discriminate.
Defined.

End MoreDedupeFacts.

(** ** More on prompt validation *)

Module MorePromptFacts.
Import Prompt MoreShapes PromptFacts.

Lemma exec_from_clean (s : string) :
  (forall before rest, s = before ++ rest ->
     alternation FORBIDDEN_ALTERNATIVES rest = None) ->
  forall i, exec_from s i = None.
Proof.
  induction s as [|c s IH]; intros H i; rewrite exec_from_eq.
  - rewrite (H "" "" eq_refl). reflexivity.
  - rewrite (H "" (String c s) eq_refl). apply IH.
    intros before rest ->. apply (H (String c before) rest). reflexivity.
Qed.

Lemma skip_suffix (n : nat) (s : string) :
  exists before, s = before ++ skip n s.
Proof.
  revert s. induction n as [|n IH]; intros s; [exists ""; reflexivity|].
  destruct s as [|c s]; [exists ""; reflexivity|].
  destruct (IH s) as [b Hb]. exists (String c b). simpl.
  exact (f_equal (String c) Hb).
Qed.

Lemma clean_decide (prompt : string) :
  exec_from prompt 0 = None -> clean prompt.
Proof.
  intros H before rest ->.
  destruct (alternation FORBIDDEN_ALTERNATIVES rest) eqn:E; [|reflexivity].
  destruct (exec_from_finds before rest 0); [congruence|exact H].
Qed.

(** No false alarm, and no memory of it.  A prompt of at most 10000
    characters in which no forbidden pattern starts is accepted, whatever
    position the regular expression was left at, and the position is reset
    to 0. *)
Theorem clean_prompt_is_accepted (prompt : string) (lastIndex : nat) :
  clean prompt ->
  (Z.of_nat (String.length prompt) <= MAX_PROMPT_LENGTH)%Z ->
  validatePrompt prompt lastIndex = (None, 0).
Proof.
  intros Hclean Hlen. unfold validatePrompt, test.
  assert (Hshort :
    (MAX_PROMPT_LENGTH <? Z.of_nat (String.length prompt))%Z = false)
    by (apply Z.ltb_ge; exact Hlen).
  destruct (String.length prompt <? lastIndex)%nat;
    [rewrite Hshort; reflexivity|].
  rewrite exec_from_clean; [rewrite Hshort; reflexivity|].
  intros before rest Hrest. destruct (skip_suffix lastIndex prompt) as [b Hb].
  apply (Hclean (b ++ before) rest).
  rewrite ParserFacts.append_assoc, <- Hrest. exact Hb.
Qed.

Lemma clean_prompt_is_accepted_witness :
  validatePrompt "list the files - then --help me" 8 = (None, 0).
Proof.
  apply (clean_prompt_is_accepted "list the files - then --help me" 8).
  - apply clean_decide. vm_compute. reflexivity.
  - vm_compute. discriminate.
Defined.

(** A forbidden prompt is never let through twice in a row.  When a
    validation of a prompt that contains a forbidden pattern does not
    answer with the reason for forbidden patterns, the validation of the
    same prompt that follows it does. *)
Theorem forbidden_prompt_caught_next_time (prompt : string) (lastIndex : nat) :
  forbidden prompt ->
  (validatePrompt prompt lastIndex).1 <> Some FORBIDDEN_REASON ->
  (validatePrompt prompt (validatePrompt prompt lastIndex).2).1
  = Some FORBIDDEN_REASON.
Proof.
  intros (before & rest & -> & Hmatch) Hmissed.
  assert (Hreset : (validatePrompt (before ++ rest) lastIndex).2 = 0).
  { revert Hmissed. unfold validatePrompt.
    destruct (test lastIndex (before ++ rest)) as [found li] eqn:E.
    destruct found; [simpl; congruence|]. intros _.
    assert (li = 0); [|destruct (_ <? _)%Z; assumption].
    revert E. unfold test. destruct (_ <? _)%nat; [congruence|].
    destruct (exec_from _ _); congruence. }
  rewrite Hreset. unfold validatePrompt, test.
  destruct (Nat.ltb_spec (String.length (before ++ rest)) 0) as [Hlt|_];
    [lia|].
  change (skip 0 (before ++ rest)) with (before ++ rest).
  pose proof (exec_from_finds before rest 0 Hmatch) as Hfound.
  destruct (exec_from (before ++ rest) 0); [reflexivity|congruence].
Qed.

Lemma forbidden_prompt_caught_next_time_witness :
  (validatePrompt "--unsafe" (validatePrompt "--unsafe" 8).2).1
  = Some FORBIDDEN_REASON.
Proof.
  apply (forbidden_prompt_caught_next_time "--unsafe" 8).
  - exists "", "--unsafe". split; [reflexivity|discriminate].
  - vm_compute. discriminate.
Defined.

End MorePromptFacts.

(** ** The string primitives *)

Module TextFacts.
Import Text.

Lemma app_cons (x : ascii) (a b : string) :
  String x a ++ b = String x (a ++ b).
Proof. reflexivity. Qed.

Lemma prefix_length (k : nat) (s : string) :
  String.length (String.substring 0 k s) = Nat.min k (String.length s).
Proof.
  revert s. induction k as [|k IH]; intros [|c s]; simpl; try reflexivity.
  rewrite IH. reflexivity.
Qed.

Lemma prefix_all (k : nat) (s : string) :
  (String.length s <= k)%nat -> String.substring 0 k s = s.
Proof.
  revert s. induction k as [|k IH]; intros [|c s] H; simpl in *;
    try reflexivity; [lia|].
  rewrite IH by lia. reflexivity.
Qed.

Lemma suffix_length (k m : nat) (s : string) :
  (String.length (String.substring k m s) <= String.length s - k)%nat.
Proof.
  revert m s. induction k as [|k IH]; intros m s.
  - rewrite prefix_length. lia.
  - destruct s as [|c s]; simpl; [lia|]. apply IH.
Qed.

Lemma prefix_suffix (k : nat) (s : string) :
  (k <= String.length s)%nat ->
  String.substring 0 k s ++ String.substring k (String.length s - k) s = s.
Proof.
  revert s. induction k as [|k IH]; intros s H.
  - rewrite Nat.sub_0_r, (prefix_all (String.length s)) by lia.
    destruct s; reflexivity.
  - destruct s as [|c s]; simpl in H; [lia|].
    simpl. rewrite app_cons, IH by lia. reflexivity.
Qed.

Lemma relative_range (s : string) (i : Z) :
  (0 <= relative s i <= len s)%Z.
Proof.
  unfold relative, len. destruct (Z.ltb_spec i 0); lia.
Qed.

(** The two slices of one cut make up the string, wherever the cut is. *)
Lemma slice_cut (s : string) (k : Z) :
  slice s 0 (Some k) ++ slice s k None = s.
Proof.
  unfold slice. pose proof (relative_range s k) as Hk.
  change (relative s 0) with (Z.min 0 (len s)).
  unfold len in *. rewrite Z.min_l by lia.
  replace (Z.to_nat (Z.max (relative s k - 0) 0))
    with (Z.to_nat (relative s k)) by lia.
  replace (Z.to_nat (Z.max (Z.of_nat (String.length s) - relative s k) 0))
    with (String.length s - Z.to_nat (relative s k))%nat by lia.
  apply prefix_suffix. lia.
Qed.

Lemma slice_head_length (s : string) (k : Z) :
  (0 <= k)%Z -> len (slice s 0 (Some k)) = Z.min k (len s).
Proof.
  intros Hk. unfold slice.
  change (relative s 0) with (Z.min 0 (len s)).
  assert (Hrel : relative s k = Z.min k (len s))
    by (unfold relative; destruct (Z.ltb_spec k 0); [lia|reflexivity]).
  rewrite Hrel. unfold len.
  replace (Z.to_nat (Z.min 0 (Z.of_nat (String.length s)))) with 0%nat by lia.
  rewrite prefix_length. lia.
Qed.

Lemma slice_tail_length (s : string) (k : Z) :
  (0 <= k)%Z -> (len (slice s k None) <= len s - Z.min k (len s))%Z.
Proof.
  intros Hk. unfold slice.
  assert (Hrel : relative s k = Z.min k (len s))
    by (unfold relative; destruct (Z.ltb_spec k 0); [lia|reflexivity]).
  rewrite Hrel.
  pose proof (suffix_length (Z.to_nat (Z.min k (len s)))
                (Z.to_nat (Z.max (len s - Z.min k (len s)) 0)) s).
  unfold len in *. lia.
Qed.

Lemma trimStart_length (s : string) :
  (String.length (trimStart s) <= String.length s)%nat.
Proof.
  induction s as [|c s IH]; simpl; [lia|].
  destruct (is_space c); simpl; lia.
Qed.

Lemma trimEnd_length (s : string) :
  (String.length (trimEnd s) <= String.length s)%nat.
Proof.
  induction s as [|c s IH]; simpl; [lia|].
  destruct (trimEnd s); [destruct (is_space c)|]; simpl in *; lia.
Qed.

Lemma trimStart_head (c : ascii) (s : string) :
  is_space c = false -> trimStart (String c s) = String c s.
Proof. intros H. simpl. rewrite H. reflexivity. Qed.

Lemma visible_app (a b : string) : visible (a ++ b) = visible a ++ visible b.
Proof.
  induction a as [|x a IH]; [reflexivity|]. rewrite app_cons. simpl.
  destruct (is_space x); [exact IH|]. exact (f_equal (String x) IH).
Qed.

Lemma visible_trimStart (s : string) : visible (trimStart s) = visible s.
Proof.
  induction s as [|c s IH]; [reflexivity|]. simpl.
  destruct (is_space c) eqn:E; [exact IH|]. simpl. rewrite E. reflexivity.
Qed.

Lemma lastIndexOf_from_le (s : string) (c : ascii) (i limit found : Z) :
  (found <= limit)%Z -> (lastIndexOf_from s c i limit found <= limit)%Z.
Proof.
  revert i found. induction s as [|x s IH]; intros i found H; simpl;
    [exact H|].
  apply IH. destruct (Ascii.eqb x c); simpl; [|exact H].
  destruct (Z.leb_spec i limit); lia.
Qed.

Lemma lastIndexOf_le (s : string) (c : ascii) (position : Z) :
  (lastIndexOf s c position <= Z.max position 0)%Z.
Proof. apply lastIndexOf_from_le. lia. Qed.

Lemma occurs_app (c : ascii) (a b : string) :
  occurs c (a ++ b) = occurs c a || occurs c b.
Proof.
  induction a as [|x a IH]; [reflexivity|]. rewrite app_cons. simpl.
  rewrite IH, orb_assoc. reflexivity.
Qed.

Lemma replaceAll_removes (c : ascii) (by_ s : string) :
  occurs c by_ = false -> occurs c (replaceAll c by_ s) = false.
Proof.
  intros H. induction s as [|x s IH]; [reflexivity|]. simpl.
  destruct (Ascii.eqb x c) eqn:E.
  - rewrite occurs_app, H, IH. reflexivity.
  - simpl. rewrite E, IH. reflexivity.
Qed.

Lemma replaceAll_adds_none (d c : ascii) (by_ s : string) :
  occurs d by_ = false -> occurs d s = false ->
  occurs d (replaceAll c by_ s) = false.
Proof.
  intros H. induction s as [|x s IH]; [reflexivity|]. simpl. intros Hs.
  apply orb_false_elim in Hs as [Hx Hs].
  destruct (Ascii.eqb x c).
  - rewrite occurs_app, H, IH by exact Hs. reflexivity.
  - simpl. rewrite Hx, IH by exact Hs. reflexivity.
Qed.

Lemma replaceAll_app (c : ascii) (by_ a b : string) :
  replaceAll c by_ (a ++ b) = replaceAll c by_ a ++ replaceAll c by_ b.
Proof.
  induction a as [|x a IH]; [reflexivity|]. rewrite app_cons. simpl.
  destruct (Ascii.eqb x c).
  - rewrite IH, ParserFacts.append_assoc. reflexivity.
  - rewrite IH. reflexivity.
Qed.

End TextFacts.

(** ** Escaping and splitting of messages *)

Module SlackHelpersFacts.
Import Text SlackHelpers TextFacts.

(** No markup gets through.  The escaped text holds neither [<] nor [>],
    the characters with which Slack text opens and closes a mention, a
    channel reference or a link. *)
Theorem escapeSlack_leaves_no_angle_bracket (text : string) :
  occurs "<" (escapeSlack text) = false /\
  occurs ">" (escapeSlack text) = false.
Proof.
  unfold escapeSlack. split.
  - apply replaceAll_adds_none; [reflexivity|].
    apply replaceAll_removes. reflexivity.
  - apply replaceAll_removes. reflexivity.
Qed.

Lemma escapeSlack_cons (c : ascii) (s : string) :
  escapeSlack (String c s) = escaped c ++ escapeSlack s.
Proof.
  unfold escapeSlack, escaped. simpl replaceAll at 3.
  destruct (Ascii.eqb_spec c "&") as [->|Hamp].
  - rewrite !replaceAll_app. reflexivity.
  - simpl replaceAll at 2.
    destruct (Ascii.eqb_spec c "<") as [->|Hlt].
    + rewrite !replaceAll_app. reflexivity.
    + simpl replaceAll at 1.
      destruct (Ascii.eqb_spec c ">") as [->|Hgt]; reflexivity.
Qed.

Lemma escapeSlack_app (a b : string) :
  escapeSlack (a ++ b) = escapeSlack a ++ escapeSlack b.
Proof. unfold escapeSlack. rewrite !replaceAll_app. reflexivity. Qed.

Lemma escaped_head (c d : ascii) (a b : string) :
  escaped c ++ a = escaped d ++ b -> c = d /\ a = b.
Proof.
  unfold escaped.
  destruct (Ascii.eqb_spec c "&") as [->|Hc1];
    [|destruct (Ascii.eqb_spec c "<") as [->|Hc2];
      [|destruct (Ascii.eqb_spec c ">") as [->|Hc3]]];
  (destruct (Ascii.eqb_spec d "&") as [->|Hd1];
    [|destruct (Ascii.eqb_spec d "<") as [->|Hd2];
      [|destruct (Ascii.eqb_spec d ">") as [->|Hd3]]]);
  simpl; intros H; inversion H; subst; try congruence; auto.
Qed.

(** Nothing is lost in escaping: different texts have different escaped
    forms, so the reader's client shows the text that was sent. *)
Theorem escapeSlack_keeps_texts_apart (a b : string) :
  a <> b -> escapeSlack a <> escapeSlack b.
Proof.
  intros Hne Heq. apply Hne. clear Hne. revert b Heq.
  induction a as [|c a IH]; intros [|d b] Heq.
  - reflexivity.
  - rewrite escapeSlack_cons in Heq. exfalso. revert Heq.
    unfold escaped. change (escapeSlack "") with "".
    destruct (Ascii.eqb d "&"); [discriminate|].
    destruct (Ascii.eqb d "<"); [discriminate|].
    destruct (Ascii.eqb d ">"); discriminate.
  - rewrite escapeSlack_cons in Heq. exfalso. revert Heq.
    unfold escaped. change (escapeSlack "") with "".
    destruct (Ascii.eqb c "&"); [discriminate|].
    destruct (Ascii.eqb c "<"); [discriminate|].
    destruct (Ascii.eqb c ">"); discriminate.
  - rewrite !escapeSlack_cons in Heq.
    apply escaped_head in Heq as [-> Heq]. f_equal. apply IH, Heq.
Qed.

Lemma escapeSlack_keeps_texts_apart_witness :
  String.eqb (escapeSlack "a<b") (escapeSlack "a&lt;b") = false.
Proof.
  apply String.eqb_neq.
  apply (escapeSlack_keeps_texts_apart "a<b" "a&lt;b"). discriminate.
Defined.

Lemma split_index_range (remaining : string) (maxLen : Z) :
  (1 <= maxLen)%Z -> (1 <= split_index remaining maxLen <= maxLen)%Z.
Proof.
  intros H. unfold split_index.
  pose proof (lastIndexOf_le remaining newline maxLen).
  pose proof (lastIndexOf_le remaining " " maxLen).
  destruct (Z.leb_spec (lastIndexOf remaining newline maxLen) 0);
    [destruct (Z.leb_spec (lastIndexOf remaining " " maxLen) 0)|];
    [lia|destruct (Z.leb_spec (lastIndexOf remaining " " maxLen) 0); lia|].
  destruct (Z.leb_spec (lastIndexOf remaining newline maxLen) 0); lia.
Qed.

(** The loop, for a limit of at least 1: it ends within as many iterations
    as the rest has characters and one more, every chunk it adds has
    between 1 and [maxLen] characters, and the chunks it adds hold the
    visible characters of the rest, in order. *)
Lemma split_loop_spec (maxLen : Z) (fuel : nat) :
  (1 <= maxLen)%Z ->
  forall remaining chunks,
    (String.length remaining < fuel)%nat ->
    exists added,
      split_loop fuel maxLen remaining chunks = Some (chunks ++ added)%list /\
      Forall (fun c => (1 <= len c <= maxLen)%Z) added /\
      (remaining <> "" -> added <> []) /\
      visible (concat_chunks added) = visible remaining.
Proof.
  intros Hmax. induction fuel as [|fuel IH]; intros remaining chunks Hfuel;
    [lia|].
  simpl. destruct (Z.ltb_spec 0 (len remaining)) as [Hpos|Hzero].
  - destruct (Z.leb_spec (len remaining) maxLen) as [Hfit|Hlong].
    + exists [remaining]. split; [reflexivity|]. split; [|split].
      * constructor; [lia|constructor].
      * discriminate.
      * simpl. rewrite ParserFacts.append_nil_r. reflexivity.
    + pose proof (split_index_range remaining maxLen Hmax) as Hidx.
      set (k := split_index remaining maxLen) in *.
      pose proof (slice_head_length remaining k ltac:(lia)) as Hhead.
      pose proof (slice_tail_length remaining k ltac:(lia)) as Htail.
      pose proof (trimStart_length (slice remaining k None)) as Htrim.
      destruct (IH (trimStart (slice remaining k None))
                  (chunks ++ [slice remaining 0 (Some k)])%list)
        as (added & Hrun & Hfits & _ & Hvis).
      { unfold len in *. lia. }
      exists (slice remaining 0 (Some k) :: added).
      split; [|split; [|split]].
      * rewrite Hrun, <- List.app_assoc. reflexivity.
      * constructor; [lia|exact Hfits].
      * discriminate.
      * simpl. rewrite visible_app, Hvis, visible_trimStart, <- visible_app.
        rewrite slice_cut. reflexivity.
  - exists []. split; [rewrite List.app_nil_r; reflexivity|].
    split; [constructor|]. split.
    + intros Hne. destruct remaining; [congruence|]. unfold len in Hzero.
      simpl in Hzero. lia.
    + destruct remaining; [reflexivity|]. unfold len in Hzero.
      simpl in Hzero. lia.
Qed.

(** Every chunk fits.  For a limit of at least 1 the splitting ends, there
    is at least one chunk, no chunk is longer than the limit, and unless
    the text is empty no chunk is empty. *)
Theorem splitMessage_chunks_fit (fuel : nat) (text : string) (maxLen : Z) :
  (1 <= maxLen)%Z -> (String.length text < fuel)%nat ->
  exists chunks,
    splitMessage fuel text maxLen = Some chunks /\
    chunks <> [] /\
    Forall (fun c => (len c <= maxLen)%Z) chunks /\
    (text <> "" -> Forall (fun c => c <> "") chunks).
Proof.
  intros Hmax Hfuel. unfold splitMessage.
  destruct (Z.leb_spec (len text) maxLen) as [Hfit|Hlong].
  - exists [text]. split; [reflexivity|]. split; [discriminate|].
    split; constructor; auto.
  - destruct (split_loop_spec maxLen fuel Hmax text [] Hfuel)
      as (added & Hrun & Hfits & Hsome & _).
    exists added. split; [exact Hrun|]. split.
    + apply Hsome. intros ->. unfold len in Hlong. simpl in Hlong. lia.
    + split; [|intros _];
        (eapply Forall_impl; [exact Hfits|]); simpl; intros c Hc; [lia|].
      intros ->. unfold len in Hc. simpl in Hc. lia.
Qed.

Lemma splitMessage_chunks_fit_witness :
  exists chunks,
    splitMessage 30 "hello world foo bar baz qux" 7 = Some chunks /\
    chunks <> [] /\
    Forall (fun c => (len c <= 7)%Z) chunks /\
    ("hello world foo bar baz qux" <> "" -> Forall (fun c => c <> "") chunks).
Proof.
  apply (splitMessage_chunks_fit 30 "hello world foo bar baz qux" 7).
  - lia.
  - simpl. lia.
Defined.

(** Only white space is dropped.  For a limit of at least 1 the chunks,
    put together, hold the characters of the text that are not white space,
    all of them and in their order. *)
Theorem splitMessage_keeps_the_text (fuel : nat) (text : string) (maxLen : Z) :
  (1 <= maxLen)%Z -> (String.length text < fuel)%nat ->
  exists chunks,
    splitMessage fuel text maxLen = Some chunks /\
    visible (concat_chunks chunks) = visible text.
Proof.
  intros Hmax Hfuel. unfold splitMessage.
  destruct (Z.leb_spec (len text) maxLen) as [Hfit|Hlong].
  - exists [text]. split; [reflexivity|]. simpl. rewrite ParserFacts.append_nil_r.
    reflexivity.
  - destruct (split_loop_spec maxLen fuel Hmax text [] Hfuel)
      as (added & Hrun & _ & _ & Hvis).
    exists added. split; [exact Hrun|exact Hvis].
Qed.

Lemma splitMessage_keeps_the_text_witness :
  exists chunks,
    splitMessage 30 "hello world foo bar baz qux" 7 = Some chunks /\
    visible (concat_chunks chunks) = visible "hello world foo bar baz qux".
Proof.
  apply (splitMessage_keeps_the_text 30 "hello world foo bar baz qux" 7).
  - lia.
  - simpl. lia.
Defined.

Lemma split_index_zero (remaining : string) : split_index remaining 0 = 0%Z.
Proof.
  unfold split_index.
  pose proof (lastIndexOf_le remaining newline 0).
  pose proof (lastIndexOf_le remaining " " 0).
  destruct (Z.leb_spec (lastIndexOf remaining newline 0) 0); [|lia].
  destruct (Z.leb_spec (lastIndexOf remaining " " 0) 0); [reflexivity|lia].
Qed.

Lemma slice_all (s : string) : slice s 0 None = s.
Proof.
  unfold slice. change (relative s 0) with (Z.min 0 (len s)).
  unfold len. rewrite Z.min_l by lia.
  replace (Z.to_nat (Z.max (Z.of_nat (String.length s) - 0) 0))
    with (String.length s) by lia.
  apply prefix_all. simpl. lia.
Qed.

(** A limit of 0 is not served.  For a text that begins with a character
    other than white space the loop cuts off nothing and goes round again:
    no number of iterations ends it. *)
Theorem splitMessage_limit_zero_never_ends
    (fuel : nat) (c : ascii) (rest : string) :
  is_space c = false ->
  splitMessage fuel (String c rest) 0 = None.
Proof.
  intros Hc. unfold splitMessage.
  assert (Hlen : (0 < len (String c rest))%Z) by (unfold len; simpl; lia).
  destruct (Z.leb_spec (len (String c rest)) 0) as [|_]; [lia|].
  generalize (@nil string) as chunks.
  induction fuel as [|fuel IH]; intros chunks; [reflexivity|].
  simpl split_loop.
  destruct (Z.ltb_spec 0 (len (String c rest))) as [_|]; [|lia].
  destruct (Z.leb_spec (len (String c rest)) 0) as [|_]; [lia|].
  rewrite split_index_zero, slice_all, trimStart_head by exact Hc.
  apply IH.
Qed.

Lemma splitMessage_limit_zero_never_ends_witness :
  splitMessage 1000 "report" 0 = None.
Proof.
  apply (splitMessage_limit_zero_never_ends 1000 "r" "eport"). reflexivity.
Defined.

End SlackHelpersFacts.

(** ** Prompt sanitizing *)

Module SanitizerFacts.
Import Text Sanitizer TextFacts.

Lemma substring_length (s : string) (n : Z) :
  (0 <= n)%Z -> len (substring s 0 n) = Z.min n (len s).
Proof.
  intros Hn. unfold substring. unfold len.
  replace (Z.to_nat (Z.min (Z.min (Z.max 0 0) (Z.of_nat (String.length s)))
                       (Z.min (Z.max n 0) (Z.of_nat (String.length s)))))
    with 0%nat by lia.
  rewrite prefix_length. lia.
Qed.

Lemma substring_all (s : string) (n : Z) :
  (len s <= n)%Z -> substring s 0 n = s.
Proof.
  intros Hn. unfold substring. unfold len in *.
  replace (Z.to_nat (Z.min (Z.min (Z.max 0 0) (Z.of_nat (String.length s)))
                       (Z.min (Z.max n 0) (Z.of_nat (String.length s)))))
    with 0%nat by lia.
  apply prefix_all. lia.
Qed.

Lemma substring_prefix (s : string) (n : Z) :
  exists k, substring s 0 n = String.substring 0 k s.
Proof.
  unfold substring. unfold len.
  replace (Z.to_nat (Z.min (Z.min (Z.max 0 0) (Z.of_nat (String.length s)))
                       (Z.min (Z.max n 0) (Z.of_nat (String.length s)))))
    with 0%nat by lia.
  eauto.
Qed.

(** The replacement only removes characters.  The recursion goes two
    characters deep, so the bound is shown for a string and its tail
    together. *)
Lemma replace_flags_length (n : nat) :
  forall s, (String.length s <= n)%nat ->
    (String.length (replace_flags s) <= String.length s)%nat.
Proof.
  induction n as [|n IH]; intros [|c s] H; simpl in *; try lia.
  assert (Hs : (String.length (replace_flags s) <= String.length s)%nat)
    by (apply IH; lia).
  destruct (is_space c && starts_flag s); [|simpl; lia].
  destruct s as [|c1 [|c2 rest]]; simpl in *; try lia.
  assert ((String.length (replace_flags rest) <= String.length rest)%nat)
    by (apply IH; lia).
  lia.
Qed.

Lemma replace_all_flags_length (s : string) :
  (String.length (replace_all_flags s) <= String.length s)%nat.
Proof.
  unfold replace_all_flags.
  pose proof (replace_flags_length (String.length s) s (le_n _)) as Hs.
  destruct (starts_flag s); [|exact Hs].
  destruct s as [|c1 [|c2 rest]]; try exact Hs.
  pose proof (replace_flags_length (String.length rest) rest (le_n _)).
  simpl. lia.
Qed.

(** The sanitized prompt is bounded.  It is never longer than the prompt
    and never longer than 10000 characters. *)
Theorem sanitizePrompt_is_bounded (prompt : string) :
  (len (sanitizePrompt prompt) <= Z.min (len prompt) Prompt.MAX_PROMPT_LENGTH)%Z.
Proof.
  unfold sanitizePrompt, trim.
  pose proof (substring_length prompt Prompt.MAX_PROMPT_LENGTH
                ltac:(unfold Prompt.MAX_PROMPT_LENGTH; lia)) as Hcut.
  set (cut := substring prompt 0 Prompt.MAX_PROMPT_LENGTH) in *.
  pose proof (replace_all_flags_length cut) as Hrep.
  set (replaced := replace_all_flags cut) in *.
  pose proof (trimStart_length replaced) as Hstart.
  pose proof (trimEnd_length (trimStart replaced)) as Hend.
  unfold len in *. lia.
Qed.

Lemma name_char_no_space (c : ascii) :
  is_name_char c = true -> is_space c = false.
Proof.
  destruct c as [[] [] [] [] [] [] [] []]; vm_compute; congruence.
Qed.

Lemma replace_flags_name (s : string) :
  is_name s = true -> replace_flags s = s.
Proof.
  induction s as [|c s IH]; [reflexivity|]. simpl. intros H.
  apply andb_prop in H as [Hc Hs].
  rewrite (name_char_no_space c Hc). simpl. rewrite IH by exact Hs.
  reflexivity.
Qed.

Lemma trimEnd_name (s : string) : is_name s = true -> trimEnd s = s.
Proof.
  induction s as [|c s IH]; [reflexivity|]. simpl. intros H.
  apply andb_prop in H as [Hc Hs]. rewrite IH by exact Hs.
  rewrite (name_char_no_space c Hc). destruct s; reflexivity.
Qed.

Lemma trimStart_name (s : string) : is_name s = true -> trimStart s = s.
Proof.
  destruct s as [|c s]; [reflexivity|]. simpl. intros H.
  apply andb_prop in H as [Hc _]. rewrite (name_char_no_space c Hc).
  reflexivity.
Qed.

(** One pair of hyphens goes, and one only.  A prompt that is two hyphens
    and a name, a non-empty run of letters, digits, underscores and
    hyphens, is sanitized to the name; a name that itself begins with two
    hyphens keeps them. *)
Theorem sanitizePrompt_strips_one_pair (name : string) :
  name <> "" -> is_name name = true ->
  (len name <= Prompt.MAX_PROMPT_LENGTH - 2)%Z ->
  sanitizePrompt ("--" ++ name) = name.
Proof.
  intros Hne Hname Hlen. unfold sanitizePrompt.
  change ("--" ++ name) with (String "-" (String "-" name)).
  rewrite substring_all
    by (unfold len in *; simpl; unfold Prompt.MAX_PROMPT_LENGTH in *; lia).
  destruct name as [|c name]; [congruence|].
  pose proof Hname as Hname'. simpl in Hname'.
  apply andb_prop in Hname' as [Hc _].
  unfold replace_all_flags. simpl starts_flag. rewrite Hc.
  rewrite replace_flags_name by exact Hname.
  unfold trim. rewrite trimStart_name, trimEnd_name by exact Hname.
  reflexivity.
Qed.

Lemma sanitizePrompt_strips_one_pair_witness :
  sanitizePrompt ("--" ++ "--model") = "--model".
Proof.
  apply (sanitizePrompt_strips_one_pair "--model").
  - discriminate.
  - reflexivity.
  - vm_compute. discriminate.
Defined.

Lemma no_hyphen_pair_tail (c : ascii) (s : string) :
  no_hyphen_pair (String c s) = true -> no_hyphen_pair s = true.
Proof.
  simpl. destruct (Ascii.eqb_spec c "-") as [->|Hc].
  - destruct s as [|d s]; [reflexivity|].
    destruct (Ascii.eqb_spec d "-") as [->|Hd]; [discriminate|].
    destruct d as [[] [] [] [] [] [] [] []]; try (intros H; exact H);
      congruence.
  - destruct c as [[] [] [] [] [] [] [] []]; try (intros H; exact H);
      congruence.
Qed.

Lemma no_hyphen_pair_no_flag (s : string) :
  no_hyphen_pair s = true -> starts_flag s = false.
Proof.
  destruct s as [|c [|d s]]; try reflexivity;
    destruct c as [[] [] [] [] [] [] [] []]; try reflexivity.
  destruct d as [[] [] [] [] [] [] [] []]; try reflexivity.
  discriminate.
Qed.

Lemma replace_flags_plain (s : string) :
  no_hyphen_pair s = true -> replace_flags s = s.
Proof.
  induction s as [|c s IH]; [reflexivity|]. intros H.
  pose proof (no_hyphen_pair_tail c s H) as Hs. simpl.
  rewrite (no_hyphen_pair_no_flag s Hs), andb_false_r, IH by exact Hs.
  reflexivity.
Qed.

Lemma no_hyphen_pair_prefix (k : nat) (s : string) :
  no_hyphen_pair s = true -> no_hyphen_pair (String.substring 0 k s) = true.
Proof.
  revert s. induction k as [|k IH]; intros s H.
  - destruct s; reflexivity.
  - destruct s as [|c s]; [reflexivity|].
    pose proof (IH s (no_hyphen_pair_tail c s H)) as Hrest.
    change (String.substring 0 (S k) (String c s))
      with (String c (String.substring 0 k s)).
    destruct (Ascii.eqb_spec c "-") as [->|Hc].
    + destruct s as [|d s]; [destruct k; reflexivity|].
      destruct (Ascii.eqb_spec d "-") as [->|Hd]; [discriminate|].
      destruct k as [|k]; [reflexivity|].
      change (String.substring 0 (S k) (String d s))
        with (String d (String.substring 0 k s)) in *.
      revert Hrest.
      destruct d as [[] [] [] [] [] [] [] []]; try (intros Hr; exact Hr);
        congruence.
    + revert Hrest.
      destruct c as [[] [] [] [] [] [] [] []]; try (intros Hr; exact Hr);
        congruence.
Qed.

(** Plain text is left alone.  A prompt in which no two hyphens are
    adjacent is only cut to 10000 characters and trimmed. *)
Theorem sanitizePrompt_leaves_plain_text (prompt : string) :
  no_hyphen_pair prompt = true ->
  sanitizePrompt prompt = trim (substring prompt 0 Prompt.MAX_PROMPT_LENGTH).
Proof.
  intros H. unfold sanitizePrompt.
  destruct (substring_prefix prompt Prompt.MAX_PROMPT_LENGTH) as [k ->].
  pose proof (no_hyphen_pair_prefix k prompt H) as Hcut.
  unfold replace_all_flags.
  rewrite (no_hyphen_pair_no_flag _ Hcut), replace_flags_plain by exact Hcut.
  reflexivity.
Qed.

Lemma sanitizePrompt_leaves_plain_text_witness :
  sanitizePrompt " summarize the read-me - briefly " =
  trim (substring " summarize the read-me - briefly " 0 Prompt.MAX_PROMPT_LENGTH).
Proof.
  apply (sanitizePrompt_leaves_plain_text " summarize the read-me - briefly ").
  reflexivity.
Defined.

End SanitizerFacts.

(** ** The environment of the child process *)

Module EnvironmentFacts.
Import Environment.

Lemma scrub_keys_lookup (ks : list string) (e : env) (k : string) :
  scrub_keys ks e !! k =
    if String.prefix "CLAUDE" k && bool_decide (k ∈ ks) then None else e !! k.
Proof.
  revert e. induction ks as [|key ks IH]; intros e.
  - simpl. rewrite andb_false_r. reflexivity.
  - change (scrub_keys (key :: ks) e)
      with (scrub_keys ks (if String.prefix "CLAUDE" key
                           then delete key e else e)).
    rewrite IH. destruct (String.prefix "CLAUDE" k) eqn:Hk; simpl.
    + destruct (decide (k ∈ ks)) as [Hin|Hout].
      * rewrite !bool_decide_eq_true_2; [reflexivity| |exact Hin].
        apply elem_of_cons. right. exact Hin.
      * rewrite (bool_decide_eq_false_2 (k ∈ ks)) by exact Hout.
        destruct (decide (k = key)) as [->|Hne].
        -- rewrite bool_decide_eq_true_2 by (apply elem_of_cons; left; reflexivity).
           rewrite Hk. apply lookup_delete_eq.
        -- rewrite bool_decide_eq_false_2.
           ++ destruct (String.prefix "CLAUDE" key); [|reflexivity].
              apply lookup_delete_ne. congruence.
           ++ intros Hin. apply elem_of_cons in Hin as [?|?]; congruence.
    + destruct (String.prefix "CLAUDE" key) eqn:Hkey; [|reflexivity].
      apply lookup_delete_ne. intros ->. congruence.
Qed.

(** The child sees no variable of the parent session.  In the environment
    handed to the process every variable whose name begins with [CLAUDE]
    is absent, and every other variable is as in the parent's
    environment. *)
Theorem child_env_drops_CLAUDE_variables (process_env : env) (k : string) :
  child_env process_env !! k =
    if String.prefix "CLAUDE" k then None else process_env !! k.
Proof.
  unfold child_env. rewrite scrub_keys_lookup.
  destruct (String.prefix "CLAUDE" k); [|reflexivity]. simpl.
  destruct (decide (k ∈ keys process_env)) as [Hin|Hout].
  - rewrite bool_decide_eq_true_2 by exact Hin. reflexivity.
  - rewrite bool_decide_eq_false_2 by exact Hout.
    destruct (process_env !! k) as [v|] eqn:E; [|reflexivity].
    destruct Hout. unfold keys. apply list_elem_of_fmap.
    exists (k, v). split; [reflexivity|]. apply elem_of_map_to_list, E.
Qed.

End EnvironmentFacts.

(** ** The final messages and their sending *)

Module FormatFacts.
Import Text SlackHelpers TextFacts SlackHelpersFacts.

Lemma succ_digits (d : Decimal.uint) :
  Decimal.nb_digits (Decimal.Little.succ d) = Decimal.nb_digits d \/
  (Decimal.nb_digits (Decimal.Little.succ d) = S (Decimal.nb_digits d) /\
   DecimalNat.Unsigned.of_lu (Decimal.Little.succ d)
   = (10 ^ Decimal.nb_digits d)%nat).
Proof.
  induction d as [|d IH|d IH|d IH|d IH|d IH|d IH|d IH|d IH|d IH|d IH];
    try (left; reflexivity).
  - right. split; reflexivity.
  - destruct IH as [IH|[IH1 IH2]].
    + left. simpl. rewrite IH. reflexivity.
    + right. split; [simpl; rewrite IH1; reflexivity|].
      change (DecimalNat.Unsigned.of_lu (Decimal.Little.succ (Decimal.D9 d)))
        with (10 * DecimalNat.Unsigned.of_lu (Decimal.Little.succ d))%nat.
      rewrite IH2. change (Decimal.nb_digits (Decimal.D9 d))
        with (S (Decimal.nb_digits d)).
      rewrite Nat.pow_succ_r'. reflexivity.
Qed.

Lemma to_lu_digits (n : nat) :
  (1 <= n)%nat ->
  (10 ^ (Decimal.nb_digits (DecimalNat.Unsigned.to_lu n) - 1) <= n)%nat.
Proof.
  induction n as [|n IH]; [lia|]. intros _.
  destruct n as [|n]; [reflexivity|].
  specialize (IH ltac:(lia)).
  rewrite DecimalNat.Unsigned.to_lu_succ.
  destruct (succ_digits (DecimalNat.Unsigned.to_lu (S n))) as [Hd|[Hd Hv]].
  - rewrite Hd. lia.
  - rewrite Hd. rewrite <- DecimalNat.Unsigned.to_lu_succ in Hv.
    rewrite DecimalNat.Unsigned.of_to_lu in Hv.
    replace (S (Decimal.nb_digits (DecimalNat.Unsigned.to_lu (S n))) - 1)%nat
      with (Decimal.nb_digits (DecimalNat.Unsigned.to_lu (S n))) by lia.
    rewrite <- Hv. apply le_n.
Qed.

Lemma string_of_uint_length (d : Decimal.uint) :
  String.length (NilEmpty.string_of_uint d) = Decimal.nb_digits d.
Proof. induction d; simpl; congruence. Qed.

(** A number below [10 ^ k] is written with at most [k] digits. *)
Lemma decimal_length (n k : nat) :
  (1 <= k)%nat -> (n < 10 ^ k)%nat -> (String.length (decimal n) <= k)%nat.
Proof.
  intros Hk Hn. unfold decimal.
  rewrite DecimalNat.Unsigned.to_uint_alt.
  assert (Hdigits :
    (Decimal.nb_digits (Decimal.rev (DecimalNat.Unsigned.to_lu n)) <= k)%nat).
  { rewrite DecimalFacts.nb_digits_rev.
    destruct n as [|n]; [exact Hk|].
    pose proof (to_lu_digits (S n) ltac:(lia)) as Hlow.
    destruct (Nat.le_gt_cases
                (Decimal.nb_digits (DecimalNat.Unsigned.to_lu (S n))) k)
      as [Hle|Hgt]; [exact Hle|].
    exfalso.
    assert (10 ^ k <= 10 ^ (Decimal.nb_digits (DecimalNat.Unsigned.to_lu (S n)) - 1))%nat
      by (apply Nat.pow_le_mono_r; lia).
    lia. }
  destruct (Decimal.rev (DecimalNat.Unsigned.to_lu n)) eqn:E;
    try (unfold NilZero.string_of_uint; rewrite string_of_uint_length;
         exact Hdigits).
  exact Hk.
Qed.

Lemma decimal_length_Z (n : nat) (k : nat) :
  (1 <= k)%nat -> (Z.of_nat n < 10 ^ Z.of_nat k)%Z ->
  (len (decimal n) <= Z.of_nat k)%Z.
Proof.
  intros Hk Hn. unfold len. apply inj_le. apply decimal_length; [exact Hk|].
  apply Nat2Z.inj_lt. rewrite Nat2Z.inj_pow. exact Hn.
Qed.

Lemma len_app (a b : string) : len (a ++ b) = (len a + len b)%Z.
Proof. unfold len. rewrite PromptFacts.length_app. lia. Qed.

(** The loop adds no more chunks than the rest has characters. *)
Lemma split_loop_count (maxLen : Z) (fuel : nat) :
  (1 <= maxLen)%Z ->
  forall remaining chunks out,
    split_loop fuel maxLen remaining chunks = Some out ->
    (length out <= length chunks + String.length remaining)%nat.
Proof.
  intros Hmax. induction fuel as [|fuel IH]; intros remaining chunks out;
    [discriminate|].
  simpl. destruct (Z.ltb_spec 0 (len remaining)) as [Hpos|Hzero].
  - destruct (Z.leb_spec (len remaining) maxLen) as [Hfit|Hlong].
    + intros [= <-]. rewrite List.length_app. simpl. unfold len in Hpos. lia.
    + intros Hrun. apply IH in Hrun. rewrite List.length_app in Hrun.
      pose proof (split_index_range remaining maxLen Hmax) as Hidx.
      pose proof (slice_tail_length remaining (split_index remaining maxLen)
                    ltac:(lia)) as Htail.
      pose proof (trimStart_length
                    (slice remaining (split_index remaining maxLen) None)).
      unfold len in *. simpl in Hrun. lia.
  - intros [= <-]. lia.
Qed.

Lemma safeSend_first_call (text : string) (o : Sender.opts)
    (first second : Sender.outcome) :
  (len text <= Sender.MAX)%Z ->
  hd_error (Sender.safeSend text o first second).1
  = Some (Sender.call_for o text).
Proof.
  intros Hlen. unfold Sender.safeSend, Sender.truncated.
  destruct (Z.ltb_spec Sender.MAX (len text)); [lia|].
  destruct first as [|err]; [reflexivity|].
  destruct (Json.strict_eq _ _); reflexivity.
Qed.

(** Every message fits, and is sent whole.  When the footer leaves room
    for content, at most 2469 characters of footer, and the text has fewer
    than [10 ^ 13] characters, formatting ends with at least one message;
    no message, with its numbering and the footer, is longer than 2500
    characters; and [safeSend] first hands each message to Slack as it is,
    not cut, whatever the options and whatever Slack answers. *)
Theorem formatResult_messages_fit (fuel : nat) (plain footer : string) :
  (len footer <= 2469)%Z ->
  (String.length plain < fuel)%nat ->
  (len plain < 10 ^ 13)%Z ->
  exists messages,
    formatResult fuel plain footer = Some messages /\
    messages <> [] /\
    Forall (fun m => (len m <= MAX_MESSAGE_LENGTH)%Z) messages /\
    Forall (fun m => forall o first second,
              hd_error (Sender.safeSend m o first second).1
              = Some (Sender.call_for o m)) messages.
Proof.
  intros Hfooter Hfuel Hsize.
  cut (exists messages,
         formatResult fuel plain footer = Some messages /\
         messages <> [] /\
         Forall (fun m => (len m <= MAX_MESSAGE_LENGTH)%Z) messages).
  { intros (messages & Hrun & Hsome & Hfit). exists messages.
    split; [exact Hrun|]. split; [exact Hsome|]. split; [exact Hfit|].
    eapply Forall_impl; [exact Hfit|]. simpl. intros m Hm o first second.
    apply safeSend_first_call. unfold MAX_MESSAGE_LENGTH, Sender.MAX in *.
    lia. }
  unfold formatResult, MAX_MESSAGE_LENGTH.
  pose proof (Zle_0_nat (String.length footer)) as Hf0. fold (len footer) in Hf0.
  destruct (Z.leb_spec (len plain) (2500 - (len footer + 10))) as [Hfit|Hlong].
  - exists [plain ++ footer]. split; [reflexivity|]. split; [discriminate|].
    constructor; [|constructor]. rewrite len_app. lia.
  - set (limit := (2500 - (len footer + 10) - 20)%Z) in *.
    assert (Hlimit : (1 <= limit)%Z) by (unfold limit; lia).
    assert (Hsplit : splitMessage fuel plain limit
                     = split_loop fuel limit plain []).
    { unfold splitMessage.
      destruct (Z.leb_spec (len plain) limit); [unfold limit in *; lia|].
      reflexivity. }
    rewrite Hsplit.
    destruct (split_loop_spec limit fuel Hlimit plain [] Hfuel)
      as (chunks & Hrun & Hfits & Hsome & _).
    pose proof (split_loop_count limit fuel Hlimit plain [] _ Hrun) as Hcount.
    rewrite Hrun. simpl app in *. simpl length in Hcount.
    eexists. split; [reflexivity|]. split.
    + intros Hnil. apply (f_equal length) in Hnil.
      rewrite length_imap in Hnil. destruct chunks; [|discriminate].
      apply Hsome; [|reflexivity]. intros ->. unfold len in *.
      simpl in Hlong. lia.
    + apply Forall_lookup. intros i m Hm.
      rewrite list_lookup_imap in Hm.
      destruct (chunks !! i) as [chunk|] eqn:Hi; [|discriminate].
      injection Hm as <-.
      pose proof (lookup_lt_Some _ _ _ Hi) as Hlt.
      pose proof (proj1 (Forall_lookup _ _) Hfits i chunk Hi) as Hchunk.
      simpl in Hchunk.
      assert (Hhead :
        (len (if (1 <? length chunks)%nat
              then "(" ++ decimal (i + 1) ++ "/" ++ decimal (length chunks)
                   ++ ")" ++ String newline ""
              else "") <= 30)%Z).
      { destruct (1 <? length chunks)%nat;
          [|unfold len; simpl; lia].
        pose proof (decimal_length_Z (i + 1) 13 ltac:(lia)
                      ltac:(change (Z.of_nat 13) with 13%Z;
                            unfold len in Hsize; lia)) as H1.
        pose proof (decimal_length_Z (length chunks) 13 ltac:(lia)
                      ltac:(change (Z.of_nat 13) with 13%Z;
                            unfold len in Hsize; lia)) as H2.
        change (Z.of_nat 13) with 13%Z in *.
        change ("(" ++ decimal (i + 1) ++ "/" ++ decimal (length chunks)
                ++ ")" ++ String newline "")
          with (String "(" (decimal (i + 1) ++
                  String "/" (decimal (length chunks) ++
                    String ")" (String newline "")))).
        unfold len at 1. simpl String.length.
        rewrite PromptFacts.length_app. simpl String.length.
        rewrite PromptFacts.length_app. simpl String.length.
        unfold len in *. lia. }
      assert (Hfoot :
        (len (if (i =? length chunks - 1)%nat then footer else "")
         <= len footer)%Z).
      { destruct (i =? length chunks - 1)%nat; [lia|].
        unfold len. simpl. lia. }
      rewrite !len_app. unfold limit in *. lia.
Qed.

Lemma formatResult_messages_fit_witness :
  exists messages,
    formatResult 4000 (String.concat " " (repeat "lorem ipsum" 300))
      "-- /home/dev/project | 12s"
    = Some messages /\
    messages <> [] /\
    Forall (fun m => (len m <= MAX_MESSAGE_LENGTH)%Z) messages /\
    Forall (fun m => forall o first second,
              hd_error (Sender.safeSend m o first second).1
              = Some (Sender.call_for o m)) messages.
Proof.
  apply (formatResult_messages_fit 4000
           (String.concat " " (repeat "lorem ipsum" 300))
           "-- /home/dev/project | 12s").
  - vm_compute. discriminate.
  - apply Nat.ltb_lt. vm_compute. reflexivity.
  - vm_compute. reflexivity.
Defined.

End FormatFacts.

(** ** Validation and sanitizing together *)

Module PipelineFacts.
Import Prompt Text Sanitizer MoreShapes TextFacts SanitizerFacts.

Lemma canonicalize_name (p : ascii) :
  is_name_char p = true -> is_name_char (canonicalize p) = true.
Proof.
  destruct p as [[] [] [] [] [] [] [] []]; vm_compute; congruence.
Qed.

Lemma canonicalize_space (c : ascii) :
  is_space c = true -> canonicalize c = c.
Proof.
  destruct c as [[] [] [] [] [] [] [] []]; vm_compute; congruence.
Qed.

(** No character of a name reads as white space, also when case is
    ignored. *)
Lemma name_is_not_space (p c : ascii) :
  is_name_char p = true -> is_space c = true ->
  Ascii.eqb (canonicalize p) (canonicalize c) = false.
Proof.
  intros Hp Hc. rewrite (canonicalize_space c Hc).
  destruct (Ascii.eqb_spec (canonicalize p) c) as [Heq|]; [|reflexivity].
  pose proof (name_char_no_space _ (canonicalize_name p Hp)) as Hno.
  rewrite Heq in Hno. congruence.
Qed.

(** A name that is read in the replaced text was there before: the
    replacement only removes hyphens behind a white-space character, and
    a name does not reach across one. *)
Lemma matches_at_replaced (s pat : string) :
  is_name pat = true ->
  matches_at pat (replace_flags s) = true -> matches_at pat s = true.
Proof.
  revert pat. induction s as [|c s IH]; intros [|p pat] Hpat;
    try (intros; reflexivity); [simpl; congruence|].
  simpl in Hpat. apply andb_prop in Hpat as [Hp Hpat].
  simpl replace_flags. destruct (is_space c) eqn:Hc.
  - assert (Hno : forall t, matches_at (String p pat) (String c t) = false)
      by (intros t; simpl; rewrite (name_is_not_space p c Hp Hc); reflexivity).
    destruct (starts_flag s); simpl andb; cbv iota;
      [destruct s as [|c1 [|c2 rest]]|]; rewrite Hno; discriminate.
  - simpl andb. cbv iota. simpl. intros H.
    apply andb_prop in H as [Hhead Htail].
    rewrite Hhead. simpl. apply IH; assumption.
Qed.

Lemma alternation_replaced (alts : list string) (s : string) :
  forallb is_name alts = true ->
  alternation alts s = None -> alternation alts (replace_flags s) = None.
Proof.
  induction alts as [|a alts IH]; [reflexivity|]. simpl. intros Hall.
  apply andb_prop in Hall as [Ha Hall].
  destruct (matches_at a s) eqn:Hs; [discriminate|]. intros Hrest.
  destruct (matches_at a (replace_flags s)) eqn:Hr.
  - apply matches_at_replaced in Hr; [congruence|exact Ha].
  - apply IH; assumption.
Qed.

(** What is left of the replaced text from any point on is the replaced
    form of what is left of the text from some point on. *)
Lemma replace_flags_suffix (n : nat) :
  forall s, (String.length s <= n)%nat ->
  forall before rest, replace_flags s = before ++ rest ->
  exists before' rest', s = before' ++ rest' /\ rest = replace_flags rest'.
Proof.
  induction n as [|n IH]; intros s Hn before rest Hcut.
  - destruct s; simpl in Hn; [|lia].
    destruct before; [|discriminate]. exists "", "". split; [reflexivity|].
    symmetry. exact Hcut.
  - destruct before as [|b before].
    { exists "", s. split; [reflexivity|]. symmetry. exact Hcut. }
    destruct s as [|c s]; [discriminate|]. simpl in Hn.
    simpl replace_flags in Hcut.
    destruct (is_space c && starts_flag s).
    + assert (Htail : forall t, (String.length t <= String.length s)%nat ->
                 replace_flags t = before ++ rest ->
                 exists before' rest',
                   t = before' ++ rest' /\ rest = replace_flags rest')
        by (intros t Ht; apply IH; lia).
      destruct s as [|c1 [|c2 tail]].
      * injection Hcut as _ Hcut.
        destruct (Htail "" (le_n _) Hcut) as (b' & r' & Hs & Hr).
        exists (String c b'), r'. split; [|exact Hr].
        rewrite TextFacts.app_cons, <- Hs. reflexivity.
      * injection Hcut as _ Hcut.
        destruct (Htail (String c1 "") (le_n _) Hcut) as (b' & r' & Hs & Hr).
        exists (String c b'), r'. split; [|exact Hr].
        rewrite TextFacts.app_cons, <- Hs. reflexivity.
      * injection Hcut as _ Hcut.
        destruct (Htail tail ltac:(simpl; lia) Hcut) as (b' & r' & Hs & Hr).
        exists (String c (String c1 (String c2 b'))), r'.
        split; [|exact Hr].
        rewrite !TextFacts.app_cons, <- Hs. reflexivity.
    + injection Hcut as _ Hcut.
      destruct (IH s ltac:(lia) _ _ Hcut) as (b' & r' & Hs & Hr).
      exists (String c b'), r'. split; [|exact Hr].
      rewrite TextFacts.app_cons, <- Hs. reflexivity.
Qed.

Lemma clean_suffix (a b : string) : clean (a ++ b) -> clean b.
Proof.
  intros H before rest ->. apply (H (a ++ before) rest).
  rewrite ParserFacts.append_assoc. reflexivity.
Qed.

Lemma matches_at_app (pat s t : string) :
  matches_at pat s = true -> matches_at pat (s ++ t) = true.
Proof.
  revert s. induction pat as [|p pat IH]; intros [|c s]; try reflexivity;
    [discriminate|].
  rewrite TextFacts.app_cons. simpl. intros H.
  apply andb_prop in H as [H1 H2]. rewrite H1, (IH s H2). reflexivity.
Qed.

Lemma alternation_app (alts : list string) (s t : string) :
  alternation alts (s ++ t) = None -> alternation alts s = None.
Proof.
  induction alts as [|a alts IH]; [reflexivity|]. simpl.
  destruct (matches_at a s) eqn:Hs.
  - rewrite (matches_at_app a s t Hs). discriminate.
  - destruct (matches_at a (s ++ t)); [discriminate|]. exact IH.
Qed.

Lemma clean_prefix (a b : string) : clean (a ++ b) -> clean a.
Proof.
  intros H before rest ->. apply (alternation_app _ rest b).
  apply (H before (rest ++ b)). rewrite ParserFacts.append_assoc.
  reflexivity.
Qed.

Lemma clean_replace_flags (s : string) : clean s -> clean (replace_flags s).
Proof.
  intros H before rest Hcut.
  destruct (replace_flags_suffix (String.length s) s (le_n _) _ _ Hcut)
    as (b' & r' & Hs & ->).
  apply alternation_replaced; [reflexivity|]. apply (H b' r' Hs).
Qed.

Lemma clean_replace_all_flags (s : string) :
  clean s -> clean (replace_all_flags s).
Proof.
  intros H. unfold replace_all_flags.
  destruct (starts_flag s); [|apply clean_replace_flags, H].
  destruct s as [|c1 [|c2 rest]]; try apply clean_replace_flags, H.
  apply clean_replace_flags.
  apply (clean_suffix (String c1 (String c2 "")) rest). exact H.
Qed.

Lemma trimStart_suffix (s : string) : exists b, s = b ++ trimStart s.
Proof.
  induction s as [|c s [b IH]]; [exists ""; reflexivity|]. simpl.
  destruct (Runner.is_space c); [|exists ""; reflexivity].
  exists (String c b). rewrite TextFacts.app_cons, <- IH. reflexivity.
Qed.

Lemma trimEnd_prefix (s : string) : exists t, s = trimEnd s ++ t.
Proof.
  induction s as [|c s [t IH]]; [exists ""; reflexivity|]. simpl.
  destruct (trimEnd s) as [|d u] eqn:E.
  - destruct (Runner.is_space c).
    + exists (String c s). reflexivity.
    + exists t. rewrite TextFacts.app_cons. simpl in IH. rewrite <- IH.
      reflexivity.
  - exists t. rewrite TextFacts.app_cons, <- IH. reflexivity.
Qed.

(** Sanitizing brings in no forbidden pattern.  If none starts anywhere in
    the prompt, as when [validatePrompt] has searched it from the start and
    found nothing, none starts anywhere in the sanitized prompt that is
    handed to the command line. *)
Theorem sanitizePrompt_adds_no_forbidden_pattern (prompt : string) :
  clean prompt -> clean (sanitizePrompt prompt).
Proof.
  intros H. unfold sanitizePrompt, Runner.trim.
  destruct (substring_prefix prompt MAX_PROMPT_LENGTH) as [k Hk].
  assert (Hcut : clean (substring prompt 0 MAX_PROMPT_LENGTH)).
  { rewrite Hk. destruct (Nat.le_gt_cases k (String.length prompt)) as [Hle|Hgt].
    - apply (clean_prefix _ (String.substring k (String.length prompt - k) prompt)).
      rewrite prefix_suffix by exact Hle. exact H.
    - rewrite prefix_all by lia. exact H. }
  apply clean_replace_all_flags in Hcut.
  set (replaced := replace_all_flags (substring prompt 0 MAX_PROMPT_LENGTH)) in *.
  destruct (trimStart_suffix replaced) as [b Hb].
  rewrite Hb in Hcut. apply clean_suffix in Hcut.
  destruct (trimEnd_prefix (Runner.trimStart replaced)) as [t Ht].
  rewrite Ht in Hcut. apply clean_prefix in Hcut. exact Hcut.
Qed.

Lemma sanitizePrompt_adds_no_forbidden_pattern_witness :
  exec_from (sanitizePrompt "run the tests --verbose and -- unsafe-looking ones") 0
  = None.
Proof.
  apply MorePromptFacts.exec_from_clean.
  apply (sanitizePrompt_adds_no_forbidden_pattern
           "run the tests --verbose and -- unsafe-looking ones").
  apply MorePromptFacts.clean_decide. vm_compute. reflexivity.
Defined.

End PipelineFacts.
